(** * ServerKit multipart: the form-data and related parsers

    A shallow embedding of [packages/multipart]: the event adapter of
    [BusboyWrapper] (busboy.wrapper.ts) and [MultipartRelatedParser]
    (multipart.related.parser.ts), the limits merge of [MultipartBody]
    (multipart.body.ts) and the [HttpError] values of [packages/errors].

    The classes are event driven.  An instance is a record of its private
    fields together with the listener tables of the two emitters it touches
    (itself and the request); what the outside world does to it (the caller
    calling [parse], the tokenizer emitting, the request closing, a file
    handler's promise settling) is an [Event], and [step] runs the listeners
    that event reaches. *)

From Stdlib Require Import ZArith String List Bool Lia.
From stdpp Require Import base gmap strings list fin_maps.
Import ListNotations.
Open Scope string_scope.
Open Scope list_scope.

(** ** JavaScript values that travel as errors *)

Module HttpError.

(** [super(message ?? HttpStatusMap[statusCode])]: the status table lives in
    http.status.map.ts, so its entry is kept symbolic. *)
Inductive Message :=
| StatusMessage (statusCode : Z)
| CustomMessage (text : string).

Record t := mk {
  statusCode : Z;
  message : Message;
  details : option (list (string * string));
  headers : option (list (string * string));
  cause : option string;
  internalDetails : option (list (string * string))
}.

(** [new HttpError(statusCode, message)] *)
Definition new (statusCode : Z) (message : option string) : t :=
  {| statusCode := statusCode;
     message := match message with
                | Some m => CustomMessage m
                | None => StatusMessage statusCode
                end;
     details := None;
     headers := None;
     cause := None;
     internalDetails := None |}.

Definition withErrors (errors : list (string * string)) (e : t) : t :=
  {| statusCode := statusCode e; message := message e;
     details := Some errors; headers := headers e; cause := cause e;
     internalDetails := internalDetails e |}.

Definition withHeaders (hs : list (string * string)) (e : t) : t :=
  {| statusCode := statusCode e; message := message e;
     details := details e; headers := Some hs; cause := cause e;
     internalDetails := internalDetails e |}.

(** [withCause(cause)], the cause kept by its message. *)
Definition withCause (c : string) (e : t) : t :=
  {| statusCode := statusCode e; message := message e;
     details := details e; headers := headers e; cause := Some c;
     internalDetails := internalDetails e |}.

Definition withInternalDetails (ds : list (string * string)) (e : t) : t :=
  {| statusCode := statusCode e; message := message e;
     details := details e; headers := headers e; cause := cause e;
     internalDetails := Some ds |}.

(** [httpError(statusCode)] *)
Definition httpError (statusCode : Z) : t := new statusCode None.

End HttpError.

Module Js.

(** What can reach [onEnd(err)]: nothing at all, an [Error], an
    [HttpError], or whatever a file handler chose to reject with. *)
Inductive Value :=
| Undefined
| Null
| Boolean (b : bool)
| Num (n : Z)
| Str (s : string)
| Error (message : string)
| Http (e : HttpError.t).

(** The test of [if (err)]. *)
Definition truthy (v : Value) : bool :=
  match v with
  | Undefined | Null => false
  | Boolean b => b
  | Num n => negb (n =? 0)%Z
  | Str s => negb (String.eqb s "")
  | Error _ | Http _ => true
  end.

End Js.

(** ** types.ts *)

Definition Stream := nat.

Record FieldData := mkField {
  value : string;
  nameTruncated : bool;
  valueTruncated : bool;
  field_encoding : string;
  field_mimeType : string
}.

Record FileData := mkFile {
  stream : Stream;
  filename : string;
  file_encoding : string;
  file_mimeType : string
}.

Inductive MultipartData :=
| Field (d : FieldData)
| File (d : FileData).

(** A value of the [fields] map: [MultipartData | MultipartData[]]. *)
Inductive Entry :=
| One (d : MultipartData)
| Many (ds : list MultipartData).

(** [MultipartLimits]: every key is optional and may hold [undefined]. *)
Definition LimitValue := option Z.

(** ** The result accumulator *)

(** [setData(name, data)] on the [fields] map. *)
Definition setData (name : string) (data : MultipartData)
    (fields : gmap string Entry) : gmap string Entry :=
  match fields !! name with
  | None => <[name := One data]> fields
  | Some (Many prev) => <[name := Many (prev ++ [data])]> fields
  | Some (One prev) => <[name := Many [prev; data]]> fields
  end.

(** The parts recorded so far, one [setData] per part, in arrival order. *)
Definition record_all (parts : list (string * MultipartData))
    (fields : gmap string Entry) : gmap string Entry :=
  fold_left (fun m p => setData (fst p) (snd p) m) parts fields.

(** The parts of a body that carry the name [name], in arrival order. *)
Definition named (name : string) (parts : list (string * MultipartData))
    : list MultipartData :=
  snd <$> filter (fun p => fst p = name) parts.

(** What [fields.get(name)] holds once the parts [ds] were recorded under
    [name], starting from a map without that key. *)
Definition entry_of (ds : list MultipartData) : option Entry :=
  match ds with
  | [] => None
  | [d] => Some (One d)
  | _ => Some (Many ds)
  end.

(** ** Event emitters *)

(** The events the tokenizer delivers, with their arguments. *)
Inductive TokEvent :=
| EField (name value : string) (nameTruncated valueTruncated : bool)
         (encoding mimeType : string)
| EFile (fieldname : string) (stream : Stream)
        (filename encoding mimeType : string)
| EFinish
| EError (err : Js.Value)
| EPartsLimit
| EFilesLimit
| EFieldsLimit.

Inductive EventName :=
| field | file | finish | error | partsLimit | filesLimit | fieldsLimit
| close.

Definition eventName (ev : TokEvent) : EventName :=
  match ev with
  | EField _ _ _ _ _ _ => field
  | EFile _ _ _ _ _ => file
  | EFinish => finish
  | EError _ => error
  | EPartsLimit => partsLimit
  | EFilesLimit => filesLimit
  | EFieldsLimit => fieldsLimit
  end.

(** The functions that are handed to [on] and [removeListener]: the
    prototype methods, and the arrow function the form-data constructor
    writes for the request's [close]. *)
Inductive Listener :=
| onField_m | onFile_m | onEnd_m
| onPartsLimit_m | onFilesLimit_m | onFieldsLimit_m
| cleanup_m
| close_arrow.

#[global] Instance EventName_eq_dec : EqDecision EventName.
Proof. solve_decision. Defined.

#[global] Instance Listener_eq_dec : EqDecision Listener.
Proof. solve_decision. Defined.

Module Emitter.

(** The listeners of one emitter, in registration order. *)
Definition t := list (EventName * Listener).

Definition on (name : EventName) (l : Listener) (ls : t) : t :=
  ls ++ [(name, l)].

(** Drops the first entry equal to [x]. *)
Fixpoint remove_first (x : EventName * Listener) (ls : t) : t :=
  match ls with
  | [] => []
  | y :: rest => if decide (x = y) then rest else y :: remove_first x rest
  end.

(** [removeListener(name, l)] removes at most one registration of [l],
    the most recently added one. *)
Definition removeListener (name : EventName) (l : Listener) (ls : t) : t :=
  rev (remove_first (name, l) (rev ls)).

(** The listeners an [emit(name, ...)] calls, in order. *)
Definition listenersOf (name : EventName) (ls : t) : list Listener :=
  snd <$> filter (fun p => fst p = name) ls.

End Emitter.

(** ** The event adapter

    Lines 93-207 of busboy.wrapper.ts and of multipart.related.parser.ts are
    the same text ([parse], [setData], [onField], [onFile], [resolve],
    [reject], [onEnd], the three limit handlers, [cleanup]); only the
    constructors differ.  The methods are therefore embedded once, over the
    instance state both classes have. *)

Definition FileHandler := nat.

(** One call [fileHandler(fieldname, stream, filename, encoding, mimeType)]. *)
Record Invocation := mkInvocation {
  inv_handler : FileHandler;
  inv_fieldname : string;
  inv_stream : Stream;
  inv_filename : string;
  inv_encoding : string;
  inv_mimeType : string
}.

(** The promise [parse] returns. *)
Inductive PromiseState :=
| Pending
| Fulfilled (result : gmap string Entry)
| Rejected (reason : Js.Value).

(** A promise keeps its first settlement. *)
Definition settle (outcome : PromiseState) (p : PromiseState) : PromiseState :=
  match p with
  | Pending => outcome
  | _ => p
  end.

Module Adapter.

Record t := mk {
  (** [limits] as handed to the tokenizer by [super(...)] *)
  limits : option (gmap string LimitValue);
  (** [this.fields] *)
  fields : gmap string Entry;
  (** [this.fileHandler] *)
  fileHandler : option FileHandler;
  (** [this.resolve]/[this.reject]: [None] is the pair of empty class
      methods, [Some p] the resolvers of promise [p] *)
  resolver : option nat;
  (** listeners registered on [this] *)
  listeners : Emitter.t;
  (** listeners registered on [this.req] *)
  reqListeners : Emitter.t;
  (** how often [this.req.pipe(this)] ran *)
  piped : nat;
  (** the promises [parse] has returned so far *)
  promises : list PromiseState;
  (** the calls made to the file handler, oldest first *)
  calls : list Invocation;
  (** positions in [calls] whose promise has not settled yet *)
  inflight : list nat;
  (** streams piped into [this.nullStream] *)
  drained : list Stream;
  (** trace: how often [cleanup] ran *)
  cleanups : nat;
  (** trace: the calls of [this.resolve]/[this.reject], oldest first *)
  settlements : list (option nat * PromiseState);
  (** trace: the values [emit] threw because an [error] event found no
      listener, oldest first *)
  uncaught : list Js.Value
}.

(** *** Field updates *)

Definition set_fields f w :=
  mk (limits w) f (fileHandler w) (resolver w) (listeners w) (reqListeners w)
     (piped w) (promises w) (calls w) (inflight w) (drained w) (cleanups w)
     (settlements w) (uncaught w).

Definition set_listeners ls w :=
  mk (limits w) (fields w) (fileHandler w) (resolver w) ls (reqListeners w)
     (piped w) (promises w) (calls w) (inflight w) (drained w) (cleanups w)
     (settlements w) (uncaught w).

Definition set_reqListeners rls w :=
  mk (limits w) (fields w) (fileHandler w) (resolver w) (listeners w) rls
     (piped w) (promises w) (calls w) (inflight w) (drained w) (cleanups w)
     (settlements w) (uncaught w).

Definition set_promises ps w :=
  mk (limits w) (fields w) (fileHandler w) (resolver w) (listeners w)
     (reqListeners w) (piped w) ps (calls w) (inflight w) (drained w)
     (cleanups w) (settlements w) (uncaught w).

Definition set_calls cs w :=
  mk (limits w) (fields w) (fileHandler w) (resolver w) (listeners w)
     (reqListeners w) (piped w) (promises w) cs (inflight w) (drained w)
     (cleanups w) (settlements w) (uncaught w).

Definition set_inflight fl w :=
  mk (limits w) (fields w) (fileHandler w) (resolver w) (listeners w)
     (reqListeners w) (piped w) (promises w) (calls w) fl (drained w)
     (cleanups w) (settlements w) (uncaught w).

Definition set_drained ds w :=
  mk (limits w) (fields w) (fileHandler w) (resolver w) (listeners w)
     (reqListeners w) (piped w) (promises w) (calls w) (inflight w) ds
     (cleanups w) (settlements w) (uncaught w).

Definition set_cleanups n w :=
  mk (limits w) (fields w) (fileHandler w) (resolver w) (listeners w)
     (reqListeners w) (piped w) (promises w) (calls w) (inflight w)
     (drained w) n (settlements w) (uncaught w).

Definition set_settlements ss w :=
  mk (limits w) (fields w) (fileHandler w) (resolver w) (listeners w)
     (reqListeners w) (piped w) (promises w) (calls w) (inflight w)
     (drained w) (cleanups w) ss (uncaught w).

Definition set_uncaught us w :=
  mk (limits w) (fields w) (fileHandler w) (resolver w) (listeners w)
     (reqListeners w) (piped w) (promises w) (calls w) (inflight w)
     (drained w) (cleanups w) (settlements w) us.

(** [this.on(name, l)], [this.removeListener(name, l)] and the same on
    [this.req] *)
Definition on name l w :=
  set_listeners (Emitter.on name l (listeners w)) w.

Definition removeListener name l w :=
  set_listeners (Emitter.removeListener name l (listeners w)) w.

Definition req_on name l w :=
  set_reqListeners (Emitter.on name l (reqListeners w)) w.

Definition req_removeListener name l w :=
  set_reqListeners (Emitter.removeListener name l (reqListeners w)) w.

(** *** The methods *)

(** [parse(fileHandler)]: the executor of the new promise runs at once; it
    stores the handler and the promise's resolvers and pipes the request. *)
Definition parse (fileHandler : option FileHandler) (w : t) : t :=
  mk (limits w) (fields w) fileHandler (Some (length (promises w)))
     (listeners w) (reqListeners w) (S (piped w)) (promises w ++ [Pending])
     (calls w) (inflight w) (drained w) (cleanups w) (settlements w)
     (uncaught w).

(** The promise of the latest [parse], if there was one. *)
Definition promise (w : t) : option PromiseState :=
  match resolver w with
  | Some p => promises w !! p
  | None => None
  end.

Definition onField (name value : string) (nameTruncated valueTruncated : bool)
    (encoding mimeType : string) (w : t) : t :=
  set_fields
    (setData name
       (Field (mkField value nameTruncated valueTruncated encoding mimeType))
       (fields w)) w.

(** A call of [this.resolve] or [this.reject]: the empty class methods do
    nothing, a promise's resolvers settle it unless it is settled. *)
Definition call_resolver (outcome : PromiseState) (w : t) : t :=
  let w := set_settlements (settlements w ++ [(resolver w, outcome)]) w in
  match resolver w with
  | Some p => set_promises (alter (settle outcome) p (promises w)) w
  | None => w
  end.

Definition resolve (v : gmap string Entry) (w : t) : t :=
  call_resolver (Fulfilled v) w.

Definition reject (e : Js.Value) (w : t) : t :=
  call_resolver (Rejected e) w.

Definition cleanup (w : t) : t :=
  let w := set_cleanups (S (cleanups w)) w in
  let w := req_removeListener close cleanup_m w in
  let w := removeListener field onField_m w in
  let w := removeListener file onFile_m w in
  let w := removeListener error onEnd_m w in
  let w := removeListener partsLimit onPartsLimit_m w in
  let w := removeListener filesLimit onFilesLimit_m w in
  let w := removeListener fieldsLimit onFieldsLimit_m w in
  removeListener finish onEnd_m w.

Definition onEnd (err : Js.Value) (w : t) : t :=
  let w := cleanup w in
  if Js.truthy err then reject err w else resolve (fields w) w.

(** [onFile]: the part is recorded; with a handler, the handler is called
    and its promise is in flight until [handler_then] or [handler_catch]
    runs. *)
Definition onFile (fieldname : string) (stream : Stream)
    (filename encoding mimeType : string) (w : t) : t :=
  let w :=
    set_fields
      (setData fieldname (File (mkFile stream filename encoding mimeType))
         (fields w)) w in
  match fileHandler w with
  | Some h =>
      let i := length (calls w) in
      let w :=
        set_calls
          (calls w ++
           [mkInvocation h fieldname stream filename encoding mimeType]) w in
      set_inflight (inflight w ++ [i]) w
  | None => w
  end.

(** [.then(() => { this.onEnd(); })] *)
Definition handler_then (w : t) : t := onEnd Js.Undefined w.

(** [.catch(reason => { stream.pipe(this.nullStream); this.onEnd(reason); })] *)
Definition handler_catch (stream : Stream) (reason : Js.Value) (w : t) : t :=
  let w := set_drained (drained w ++ [stream]) w in
  onEnd reason w.

Definition onPartsLimit (w : t) : t :=
  let err :=
    HttpError.withInternalDetails [("reason", "Reached parts limit")]
      (HttpError.httpError 413) in
  onEnd (Js.Http err) w.

Definition onFilesLimit (w : t) : t :=
  let err :=
    HttpError.withInternalDetails [("reason", "Reached files limit")]
      (HttpError.httpError 413) in
  onEnd (Js.Http err) w.

Definition onFieldsLimit (w : t) : t :=
  let err :=
    HttpError.withInternalDetails [("reason", "Reached fields limit")]
      (HttpError.httpError 413) in
  onEnd (Js.Http err) w.

(** *** Delivery *)

(** The first argument an event is emitted with. *)
Definition firstArg (ev : TokEvent) : Js.Value :=
  match ev with
  | EField name _ _ _ _ _ => Js.Str name
  | EFile fieldname _ _ _ _ => Js.Str fieldname
  | EError err => err
  | EFinish | EPartsLimit | EFilesLimit | EFieldsLimit => Js.Undefined
  end.

(** One listener called with the arguments of [ev].  The constructor never
    registers [onField] or [onFile] for an event with other arguments, so
    those combinations are left as no-ops; the arrow function of the
    request's [close] evaluates [this.cleanup] and calls nothing. *)
Definition invoke (l : Listener) (ev : TokEvent) (w : t) : t :=
  match l, ev with
  | onField_m, EField name value nt vt enc mime =>
      onField name value nt vt enc mime w
  | onFile_m, EFile fieldname stream filename enc mime =>
      onFile fieldname stream filename enc mime w
  | onEnd_m, _ => onEnd (firstArg ev) w
  | onPartsLimit_m, _ => onPartsLimit w
  | onFilesLimit_m, _ => onFilesLimit w
  | onFieldsLimit_m, _ => onFieldsLimit w
  | cleanup_m, _ => cleanup w
  | close_arrow, _ => w
  | onField_m, _ | onFile_m, _ => w
  end.

(** [this.emit(name, ...args)]: the listeners registered for the event when
    it is emitted run in registration order.  An event that finds no
    listener calls nothing; for [error] Node's [emit] then throws the value
    it was given (wrapped, when it is not an [Error]) instead of returning,
    which is recorded in [uncaught]. *)
Definition emit (ev : TokEvent) (w : t) : t :=
  match Emitter.listenersOf (eventName ev) (listeners w), ev with
  | [], EError err => set_uncaught (uncaught w ++ [err]) w
  | ls, _ => fold_left (fun w l => invoke l ev w) ls w
  end.

(** [this.req.emit('close')] *)
Definition req_close (w : t) : t :=
  fold_left
    (fun w l => match l with
                | cleanup_m => cleanup w
                | _ => w
                end)
    (Emitter.listenersOf close (reqListeners w)) w.

(** What happens to an instance from outside. *)
Inductive Event :=
| Parse (fileHandler : option FileHandler)
| Emit (ev : TokEvent)
| ReqClose
| HandlerResolved (call : nat)
| HandlerRejected (call : nat) (reason : Js.Value).

(** A handler's promise settles once: the continuation of call [i] runs
    only while [i] is in flight. *)
Definition settle_call (i : nat) (k : Invocation -> t -> t) (w : t) : t :=
  match calls w !! i with
  | Some inv =>
      if decide (i ∈ inflight w)
      then k inv (set_inflight (filter (fun j => j ≠ i) (inflight w)) w)
      else w
  | None => w
  end.

Definition step (w : t) (e : Event) : t :=
  match e with
  | Parse h => parse h w
  | Emit ev => emit ev w
  | ReqClose => req_close w
  | HandlerResolved i => settle_call i (fun _ => handler_then) w
  | HandlerRejected i reason =>
      settle_call i (fun inv => handler_catch (inv_stream inv) reason) w
  end.

Definition run (w : t) (es : list Event) : t := fold_left step es w.

End Adapter.

(** ** The two classes *)

Module BusboyWrapper.

(** [new BusboyWrapper(req, limits)], for a request and limits the
    tokenizer accepts.  [super({ headers, limits })] runs first and is the
    external tokenizer's constructor: it throws on a missing or unsupported
    [Content-Type] and on a limit that is not a number, and then there is no
    instance at all.  What follows is the instance a constructor call that
    returns leaves behind. *)
Definition new (limits : option (gmap string LimitValue)) : Adapter.t :=
  let w :=
    Adapter.mk limits ∅ None None [] [] 0 [] [] [] [] 0 [] [] in
  let w := Adapter.req_on close close_arrow w in
  let w := Adapter.on field onField_m w in
  let w := Adapter.on file onFile_m w in
  let w := Adapter.on finish onEnd_m w in
  let w := Adapter.on error onEnd_m w in
  let w := Adapter.on partsLimit onPartsLimit_m w in
  let w := Adapter.on filesLimit onFilesLimit_m w in
  Adapter.on fieldsLimit onFieldsLimit_m w.

Definition parse := Adapter.parse.

End BusboyWrapper.

Module MultipartRelatedParser.

(** [new MultipartRelatedParser(req)]: [super()] and nothing else. *)
Definition new : Adapter.t :=
  Adapter.mk None ∅ None None [] [] 0 [] [] [] [] 0 [] [].

Definition parse := Adapter.parse.

End MultipartRelatedParser.

(** ** multipart.body.ts *)

Module MultipartBody.

Definition MAX_FILE_SIZE : Z := 20 * 1024 * 1024.

Record t := mk { _limits : gmap string LimitValue }.

(** [new MultipartBody(req, _limits = { files: 1, fileSize: MAX_FILE_SIZE })] *)
Definition new (limits : option (gmap string LimitValue)) : t :=
  match limits with
  | Some l => mk l
  | None => mk (<["files" := Some 1%Z]> (<["fileSize" := Some MAX_FILE_SIZE]> ∅))
  end.

(** [{ ...a, ...b }]: the keys of [a], then the keys of [b] written over
    them; spreading [undefined] adds no key. *)
Definition spread (a : gmap string LimitValue)
    (b : option (gmap string LimitValue)) : gmap string LimitValue :=
  match b with
  | Some b => b ∪ a
  | None => a
  end.

(** The wrapper [parse] builds. *)
Definition busboy (body : t) (limits : option (gmap string LimitValue))
    : Adapter.t :=
  BusboyWrapper.new (Some (spread (_limits body) limits)).

Definition parse (body : t) (fileHandler : option FileHandler)
    (limits : option (gmap string LimitValue)) : Adapter.t :=
  BusboyWrapper.parse fileHandler (busboy body limits).

End MultipartBody.

(** ** Vocabulary of the statements *)

(** The events that end a parse. *)
Definition terminal (ev : TokEvent) : bool :=
  match ev with
  | EFinish | EError _ | EPartsLimit | EFilesLimit | EFieldsLimit => true
  | EField _ _ _ _ _ _ | EFile _ _ _ _ _ => false
  end.

(** The settlement a terminal event asks for, given the map at that time. *)
Definition outcome_of (ev : TokEvent) (fields : gmap string Entry)
    : PromiseState :=
  match ev with
  | EPartsLimit =>
      Rejected (Js.Http (HttpError.withInternalDetails
        [("reason", "Reached parts limit")] (HttpError.httpError 413)))
  | EFilesLimit =>
      Rejected (Js.Http (HttpError.withInternalDetails
        [("reason", "Reached files limit")] (HttpError.httpError 413)))
  | EFieldsLimit =>
      Rejected (Js.Http (HttpError.withInternalDetails
        [("reason", "Reached fields limit")] (HttpError.httpError 413)))
  | EError err => if Js.truthy err then Rejected err else Fulfilled fields
  | _ => Fulfilled fields
  end.

(** The listener table the form-data constructor leaves behind. *)
Definition wired : Emitter.t :=
  [(field, onField_m); (file, onFile_m); (finish, onEnd_m); (error, onEnd_m);
   (partsLimit, onPartsLimit_m); (filesLimit, onFilesLimit_m);
   (fieldsLimit, onFieldsLimit_m)].

(** The shapes the two listener tables take in the life of an instance of
    either class. *)
Definition shaped (w : Adapter.t) : Prop :=
  (Adapter.listeners w = wired ∨ Adapter.listeners w = []) ∧
  (Adapter.reqListeners w = [(close, close_arrow)] ∨
   Adapter.reqListeners w = []).

(** The state [cleanup] leaves: no listener on the tokenizer side, one more
    run counted. *)
Definition cleaned (w : Adapter.t) : Adapter.t :=
  Adapter.set_listeners [] (Adapter.set_cleanups (S (Adapter.cleanups w)) w).

(** The latest promise is still open. *)
Definition pending (w : Adapter.t) : Prop :=
  Adapter.promise w = Some Pending.

(** How many [file] events a schedule delivers. *)
Definition is_file_event (e : Adapter.Event) : bool :=
  match e with
  | Adapter.Emit (EFile _ _ _ _ _) => true
  | _ => false
  end.

Definition file_events (es : list Adapter.Event) : nat :=
  length (List.filter is_file_event es).

(** Nothing can reach the instance any more: no listener on the tokenizer
    side and no handler promise in flight. *)
Definition silent (w : Adapter.t) : Prop :=
  Adapter.listeners w = [] ∧ Adapter.inflight w = [] ∧ shaped w.

(** Every call in flight is a call that was made. *)
Definition tracked (w : Adapter.t) : Prop :=
  ∀ i, i ∈ Adapter.inflight w → is_Some (Adapter.calls w !! i).

(** The state right after [parse] on a new form-data instance, possibly
    with parts already recorded. *)
Definition parsing (w : Adapter.t) : Prop :=
  shaped w ∧ Adapter.listeners w = wired ∧ Adapter.resolver w = Some 0 ∧
  Adapter.promises w = [Pending] ∧ Adapter.settlements w = [] ∧
  Adapter.cleanups w = 0.

(** A form-data instance on which [parse] was not called yet and which has
    received field and file parts only. *)
Definition unparsed (w : Adapter.t) : Prop :=
  shaped w ∧ Adapter.listeners w = wired ∧ Adapter.resolver w = None ∧
  Adapter.fileHandler w = None ∧ Adapter.promises w = [] ∧
  Adapter.settlements w = [] ∧ Adapter.inflight w = [].

(** The events after which [onEnd] is entered without an error value: the
    end of the stream, a handler's promise settling with success, and an
    [error] event or a rejection that carries a value failing [if (err)]. *)
Definition may_resolve (e : Adapter.Event) : bool :=
  match e with
  | Adapter.Emit EFinish => true
  | Adapter.Emit (EError err) => negb (Js.truthy err)
  | Adapter.HandlerResolved _ => true
  | Adapter.HandlerRejected _ reason => negb (Js.truthy reason)
  | _ => false
  end.

(** The reason string of a limit event. *)
Definition limit_reason (ev : TokEvent) : option string :=
  match ev with
  | EPartsLimit => Some "Reached parts limit"
  | EFilesLimit => Some "Reached files limit"
  | EFieldsLimit => Some "Reached fields limit"
  | _ => None
  end.

(** Modelled from the spec: the tokenizer is the external @fastify/busboy,
    whose code is not part of the sources.  Its side of the files limit, as
    sections 4.1, 7 and 8 (P4) of the specification describe it: file parts
    are delivered in body order until [filesLimit] of them were delivered; a
    further file part is not delivered, the first such part is reported as
    [filesLimit], and the end of the body as [finish]. *)
Fixpoint deliver (filesLimit nfiles : nat) (hit : bool)
    (parts : list (string * FileData)) : list TokEvent :=
  match parts with
  | [] => [EFinish]
  | (fieldname, d) :: rest =>
      if (nfiles =? filesLimit)%nat
      then (if hit then [] else [EFilesLimit])
           ++ deliver filesLimit nfiles true rest
      else EFile fieldname (stream d) (filename d) (file_encoding d)
             (file_mimeType d)
           :: deliver filesLimit (S nfiles) hit rest
  end.

(** The part a [field] or [file] event makes [onField] or [onFile] record,
    with the name it is recorded under. *)
Definition part_of (ev : TokEvent) : option (string * MultipartData) :=
  match ev with
  | EField name value nt vt enc mime =>
      Some (name, Field (mkField value nt vt enc mime))
  | EFile fieldname s filename enc mime =>
      Some (fieldname, File (mkFile s filename enc mime))
  | _ => None
  end.

Definition parts_of (evs : list TokEvent) : list (string * MultipartData) :=
  omap part_of evs.

(** The call [onFile] makes to the handler [h] for a [file] event. *)
Definition call_of (h : FileHandler) (ev : TokEvent) : option Invocation :=
  match ev with
  | EFile fieldname s filename enc mime =>
      Some (mkInvocation h fieldname s filename enc mime)
  | _ => None
  end.

(** The calls [onFile] makes for a run of events with [this.fileHandler]
    being [h]. *)
Definition calls_of (h : option FileHandler) (evs : list TokEvent)
    : list Invocation :=
  match h with
  | Some h => omap (call_of h) evs
  | None => []
  end.

Definition nonterminal (evs : list TokEvent) : bool :=
  forallb (λ ev, negb (terminal ev)) evs.

(** The error values an event can hand to [reject]. *)
Definition rejections_of (e : Adapter.Event) : list Js.Value :=
  match e with
  | Adapter.Emit (EError err) => [err]
  | Adapter.Emit EPartsLimit =>
      [Js.Http (HttpError.withInternalDetails
         [("reason", "Reached parts limit")] (HttpError.httpError 413))]
  | Adapter.Emit EFilesLimit =>
      [Js.Http (HttpError.withInternalDetails
         [("reason", "Reached files limit")] (HttpError.httpError 413))]
  | Adapter.Emit EFieldsLimit =>
      [Js.Http (HttpError.withInternalDetails
         [("reason", "Reached fields limit")] (HttpError.httpError 413))]
  | Adapter.HandlerRejected _ reason => [reason]
  | _ => []
  end.

(** The [parse] calls of a schedule pass no file handler. *)
Definition without_handler (es : list Adapter.Event) : bool :=
  forallb (λ e, match e with
                | Adapter.Parse (Some _) => false
                | _ => true
                end) es.

(** How many handler rejections a schedule holds. *)
Definition handler_rejections (es : list Adapter.Event) : nat :=
  length (List.filter (λ e, match e with
                            | Adapter.HandlerRejected _ _ => true
                            | _ => false
                            end) es).

(** What an event that finds no listener leaves behind: nothing, or for
    [error] the thrown value. *)
Definition unheard (ev : TokEvent) (w : Adapter.t) : Adapter.t :=
  match ev with
  | EError err => Adapter.set_uncaught (Adapter.uncaught w ++ [err]) w
  | _ => w
  end.







(** * Properties *)

(** ** The merge law of the accumulator *)

Section Accumulator.

Variable name : string.

Lemma entry_of_snoc (acc : list MultipartData) (d : MultipartData)
    (m : gmap string Entry) :
  m !! name = entry_of acc →
  setData name d m !! name = entry_of (acc ++ [d]).
Proof.
  intros Hm. unfold setData. rewrite Hm.
  destruct acc as [|a [|b rest]]; simpl.
  - apply lookup_insert_eq.
  - apply lookup_insert_eq.
  - rewrite lookup_insert_eq. by destruct (rest ++ [d]).
Qed.

Lemma setData_other (other : string) (d : MultipartData)
    (m : gmap string Entry) :
  other ≠ name → setData other d m !! name = m !! name.
Proof.
  intros Hne. unfold setData.
  destruct (m !! other) as [[prev|prev]|]; by rewrite lookup_insert_ne.
Qed.

Lemma record_all_lookup (parts : list (string * MultipartData)) :
  ∀ (acc : list MultipartData) (m : gmap string Entry),
    m !! name = entry_of acc →
    record_all parts m !! name = entry_of (acc ++ named name parts).
Proof.
  induction parts as [|[n d] parts IH]; intros acc m Hm.
  - unfold named. simpl. by rewrite app_nil_r.
  - unfold record_all. simpl. fold (record_all parts (setData n d m)).
    unfold named. rewrite filter_cons. simpl.
    destruct (decide (n = name)) as [->|Hne].
    + rewrite fmap_cons. simpl. fold (named name parts).
      rewrite (IH (acc ++ [d])); [by rewrite <- app_assoc|].
      by apply entry_of_snoc.
    + fold (named name parts). apply IH. by rewrite setData_other.
Qed.

End Accumulator.

(** C4. Whatever parts a body carries and in whatever order, what the map
    holds for a name after one [setData] per part is decided by the parts of
    that name alone: nothing when there is none, the bare part when there is
    exactly one, and otherwise the list of them in arrival order.  In
    particular one part [v1] is stored as [One v1], two parts [v1], [v2]
    as [Many [v1; v2]], and a third part is appended at the end. *)
Theorem setData_merge_law :
  (∀ (parts : list (string * MultipartData)) (name : string),
     record_all parts ∅ !! name = entry_of (named name parts)) ∧
  (∀ (name : string) (v1 : MultipartData),
     setData name v1 ∅ !! name = Some (One v1)) ∧
  (∀ (name : string) (v1 v2 : MultipartData),
     setData name v2 (setData name v1 ∅) !! name = Some (Many [v1; v2])) ∧
  (∀ (name : string) (v1 v2 v3 : MultipartData),
     setData name v3 (setData name v2 (setData name v1 ∅)) !! name
     = Some (Many [v1; v2; v3])).
Proof.
  split; [|split; [|split]].
  - intros parts name. by apply (record_all_lookup name parts []).
  - intros name v1. apply (entry_of_snoc name [] v1 ∅). apply lookup_empty.
  - intros name v1 v2. apply (entry_of_snoc name [v1] v2).
    apply (entry_of_snoc name [] v1 ∅). apply lookup_empty.
  - intros name v1 v2 v3. apply (entry_of_snoc name [v1; v2] v3).
    apply (entry_of_snoc name [v1] v2).
    apply (entry_of_snoc name [] v1 ∅). apply lookup_empty.
Qed.

(** ** The listener tables *)

Lemma new_shaped (limits : option (gmap string LimitValue)) :
  shaped (BusboyWrapper.new limits).
Proof. split; left; reflexivity. Qed.

Lemma related_shaped : shaped MultipartRelatedParser.new.
Proof. split; right; reflexivity. Qed.

Lemma cleanup_cleaned (w : Adapter.t) :
  shaped w → Adapter.cleanup w = cleaned w.
Proof.
  destruct w. unfold shaped. simpl.
  intros [[-> | ->] [-> | ->]]; reflexivity.
Qed.

Lemma cleaned_shaped (w : Adapter.t) : shaped w → shaped (cleaned w).
Proof. intros [_ Hr]. split; [by right | exact Hr]. Qed.

Lemma call_resolver_tables (o : PromiseState) (w : Adapter.t) :
  Adapter.listeners (Adapter.call_resolver o w) = Adapter.listeners w ∧
  Adapter.reqListeners (Adapter.call_resolver o w) = Adapter.reqListeners w.
Proof. unfold Adapter.call_resolver. simpl. by destruct (Adapter.resolver w). Qed.

Lemma onEnd_cleaned (err : Js.Value) (w : Adapter.t) :
  shaped w →
  Adapter.onEnd err w =
  Adapter.call_resolver
    (if Js.truthy err then Rejected err else Fulfilled (Adapter.fields w))
    (cleaned w).
Proof.
  intros Hs. unfold Adapter.onEnd, Adapter.reject, Adapter.resolve.
  rewrite (cleanup_cleaned w Hs). by destruct (Js.truthy err).
Qed.

Lemma onEnd_unwired (err : Js.Value) (w : Adapter.t) :
  shaped w → Adapter.listeners (Adapter.onEnd err w) = [].
Proof.
  intros Hs. rewrite (onEnd_cleaned err w Hs).
  by rewrite (proj1 (call_resolver_tables _ _)).
Qed.

Lemma onEnd_shaped (err : Js.Value) (w : Adapter.t) :
  shaped w → shaped (Adapter.onEnd err w).
Proof.
  intros Hs. rewrite (onEnd_cleaned err w Hs).
  destruct (call_resolver_tables
              (if Js.truthy err then Rejected err
               else Fulfilled (Adapter.fields w)) (cleaned w)) as [Hl Hr].
  unfold shaped. rewrite Hl, Hr. by apply cleaned_shaped.
Qed.

Lemma onFile_tables (fieldname : string) (s : Stream)
    (filename enc mime : string) (w : Adapter.t) :
  Adapter.listeners (Adapter.onFile fieldname s filename enc mime w)
  = Adapter.listeners w ∧
  Adapter.reqListeners (Adapter.onFile fieldname s filename enc mime w)
  = Adapter.reqListeners w.
Proof. unfold Adapter.onFile. simpl. by destruct (Adapter.fileHandler w). Qed.

(** With no listener left, an emitted event reaches nothing. *)
Lemma emit_unwired (ev : TokEvent) (w : Adapter.t) :
  Adapter.listeners w = [] → Adapter.emit ev w = unheard ev w.
Proof. intros H. unfold Adapter.emit. rewrite H. by destruct ev. Qed.

(** With the constructor's table, an event reaches exactly its method. *)
Lemma emit_wired (ev : TokEvent) (w : Adapter.t) :
  Adapter.listeners w = wired →
  Adapter.emit ev w =
  match ev with
  | EField name value nt vt enc mime =>
      Adapter.onField name value nt vt enc mime w
  | EFile fieldname s filename enc mime =>
      Adapter.onFile fieldname s filename enc mime w
  | EFinish => Adapter.onEnd Js.Undefined w
  | EError err => Adapter.onEnd err w
  | EPartsLimit => Adapter.onPartsLimit w
  | EFilesLimit => Adapter.onFilesLimit w
  | EFieldsLimit => Adapter.onFieldsLimit w
  end.
Proof. intros H. unfold Adapter.emit. rewrite H. by destruct ev. Qed.

Lemma req_close_id (w : Adapter.t) : shaped w → Adapter.req_close w = w.
Proof. intros [_ [H | H]]; unfold Adapter.req_close; by rewrite H. Qed.

Lemma emit_shaped (ev : TokEvent) (w : Adapter.t) :
  shaped w → shaped (Adapter.emit ev w).
Proof.
  intros Hs. destruct (proj1 Hs) as [Hw | Hu].
  - rewrite (emit_wired ev w Hw). destruct ev; try by apply onEnd_shaped.
    + exact Hs.
    + destruct (onFile_tables fieldname stream0 filename0 encoding mimeType w)
        as [Hl Hr].
      unfold shaped. rewrite Hl, Hr. exact Hs.
  - rewrite (emit_unwired ev w Hu). by destruct ev.
Qed.

Lemma settle_call_shaped (i : nat) (k : Invocation → Adapter.t → Adapter.t)
    (w : Adapter.t) :
  (∀ inv w', shaped w' → shaped (k inv w')) →
  shaped w → shaped (Adapter.settle_call i k w).
Proof.
  intros Hk Hs. unfold Adapter.settle_call.
  destruct (Adapter.calls w !! i); [|done].
  destruct (decide (i ∈ Adapter.inflight w)); [|done].
  by apply Hk.
Qed.

Lemma step_shaped (w : Adapter.t) (e : Adapter.Event) :
  shaped w → shaped (Adapter.step w e).
Proof.
  intros Hs. destruct e; simpl.
  - exact Hs.
  - by apply emit_shaped.
  - by rewrite req_close_id.
  - apply settle_call_shaped; [|done].
    intros _ w' Hs'. by apply onEnd_shaped.
  - apply settle_call_shaped; [|done].
    intros inv w' Hs'. unfold Adapter.handler_catch. by apply onEnd_shaped.
Qed.

Lemma run_shaped (es : list Adapter.Event) :
  ∀ w, shaped w → shaped (Adapter.run w es).
Proof.
  induction es as [|e es IH]; intros w Hs; [done|].
  apply IH. by apply step_shaped.
Qed.

(** ** Promises *)

Lemma settle_settled (o s : PromiseState) : s ≠ Pending → settle o s = s.
Proof. by destruct s. Qed.

Lemma call_resolver_pending (o : PromiseState) (w : Adapter.t) :
  pending w → Adapter.promise (Adapter.call_resolver o w) = Some o.
Proof.
  unfold pending, Adapter.promise, Adapter.call_resolver. simpl.
  destruct (Adapter.resolver w) as [p|] eqn:Hr; [|done]. simpl.
  intros Hp. rewrite Hr, list_lookup_alter_eq, Hp. done.
Qed.

Lemma call_resolver_keeps (o s : PromiseState) (p : nat) (w : Adapter.t) :
  Adapter.promises w !! p = Some s → s ≠ Pending →
  Adapter.promises (Adapter.call_resolver o w) !! p = Some s.
Proof.
  intros Hp Hs. unfold Adapter.call_resolver. simpl.
  destruct (Adapter.resolver w) as [q|]; simpl; [|done].
  destruct (decide (q = p)) as [->|Hne].
  - rewrite list_lookup_alter_eq, Hp. simpl. by rewrite settle_settled.
  - by rewrite list_lookup_alter_ne.
Qed.

Lemma onEnd_pending (err : Js.Value) (w : Adapter.t) :
  shaped w → pending w →
  Adapter.promise (Adapter.onEnd err w) =
  Some (if Js.truthy err then Rejected err else Fulfilled (Adapter.fields w)).
Proof.
  intros Hs Hp. rewrite (onEnd_cleaned err w Hs).
  by apply call_resolver_pending.
Qed.

Lemma onEnd_keeps (err : Js.Value) (s : PromiseState) (p : nat)
    (w : Adapter.t) :
  shaped w → Adapter.promises w !! p = Some s → s ≠ Pending →
  Adapter.promises (Adapter.onEnd err w) !! p = Some s.
Proof.
  intros Hsh Hp Hs. rewrite (onEnd_cleaned err w Hsh).
  by apply call_resolver_keeps.
Qed.

Lemma onFile_promises (fieldname : string) (s : Stream)
    (filename enc mime : string) (w : Adapter.t) :
  Adapter.promises (Adapter.onFile fieldname s filename enc mime w)
  = Adapter.promises w.
Proof. unfold Adapter.onFile. simpl. by destruct (Adapter.fileHandler w). Qed.

(** A settled promise is never touched again. *)
Lemma step_keeps (w : Adapter.t) (e : Adapter.Event) (p : nat)
    (s : PromiseState) :
  shaped w → Adapter.promises w !! p = Some s → s ≠ Pending →
  Adapter.promises (Adapter.step w e) !! p = Some s.
Proof.
  intros Hsh Hp Hs. destruct e; simpl.
  - rewrite lookup_app_l; [done | by eapply lookup_lt_Some].
  - destruct (proj1 Hsh) as [Hw | Hu].
    + rewrite (emit_wired ev w Hw).
      destruct ev; try by apply onEnd_keeps.
      * done.
      * by rewrite onFile_promises.
    + rewrite (emit_unwired ev w Hu). by destruct ev.
  - by rewrite req_close_id.
  - unfold Adapter.settle_call.
    destruct (Adapter.calls w !! call); [|done].
    destruct (decide (call ∈ Adapter.inflight w)); [|done].
    by apply onEnd_keeps.
  - unfold Adapter.settle_call.
    destruct (Adapter.calls w !! call); [|done].
    destruct (decide (call ∈ Adapter.inflight w)); [|done].
    by apply onEnd_keeps.
Qed.

Lemma run_keeps (es : list Adapter.Event) :
  ∀ (w : Adapter.t) (p : nat) (s : PromiseState),
    shaped w → Adapter.promises w !! p = Some s → s ≠ Pending →
    Adapter.promises (Adapter.run w es) !! p = Some s.
Proof.
  induction es as [|e es IH]; intros w p s Hsh Hp Hs; [done|].
  simpl. apply IH; [by apply step_shaped | by apply step_keeps | done].
Qed.

(** ** Calls to the file handler *)

Lemma onEnd_calls (err : Js.Value) (w : Adapter.t) :
  shaped w →
  Adapter.calls (Adapter.onEnd err w) = Adapter.calls w ∧
  Adapter.inflight (Adapter.onEnd err w) = Adapter.inflight w ∧
  Adapter.drained (Adapter.onEnd err w) = Adapter.drained w.
Proof.
  intros Hs. rewrite (onEnd_cleaned err w Hs). unfold Adapter.call_resolver.
  simpl. by destruct (Adapter.resolver w).
Qed.

Lemma onFile_tracked (fieldname : string) (s : Stream)
    (filename enc mime : string) (w : Adapter.t) :
  tracked w → tracked (Adapter.onFile fieldname s filename enc mime w).
Proof.
  intros Ht i. unfold Adapter.onFile. simpl.
  destruct (Adapter.fileHandler w); simpl; [|by apply Ht].
  intros [Hi | Hi]%elem_of_app.
  - destruct (Ht i Hi) as [inv Hinv]. exists inv.
    rewrite lookup_app_l; [done | by eapply lookup_lt_Some].
  - apply list_elem_of_singleton in Hi as ->.
    eexists. by rewrite list_lookup_middle.
Qed.

Lemma settle_call_tracked (i : nat) (k : Invocation → Adapter.t → Adapter.t)
    (w : Adapter.t) :
  (∀ inv w', shaped w' →
     Adapter.calls (k inv w') = Adapter.calls w' ∧
     Adapter.inflight (k inv w') = Adapter.inflight w') →
  shaped w → tracked w → tracked (Adapter.settle_call i k w).
Proof.
  intros Hk Hs Ht. unfold Adapter.settle_call.
  destruct (Adapter.calls w !! i) as [inv|]; [|done].
  destruct (decide (i ∈ Adapter.inflight w)); [|done].
  intros j.
  destruct (Hk inv (Adapter.set_inflight
    (filter (λ j, j ≠ i) (Adapter.inflight w)) w) Hs) as [-> ->]. simpl.
  intros [_ Hj]%list_elem_of_filter. by apply Ht.
Qed.

Lemma onEnd_tracked (err : Js.Value) (w : Adapter.t) :
  shaped w → tracked w → tracked (Adapter.onEnd err w).
Proof.
  intros Hs Ht j. destruct (onEnd_calls err w Hs) as (-> & -> & _).
  by apply Ht.
Qed.

Lemma step_tracked (w : Adapter.t) (e : Adapter.Event) :
  shaped w → tracked w → tracked (Adapter.step w e).
Proof.
  intros Hs Ht. destruct e; simpl.
  - exact Ht.
  - destruct (proj1 Hs) as [Hw | Hu].
    + rewrite (emit_wired ev w Hw).
      destruct ev; try by apply onEnd_tracked.
      * exact Ht.
      * by apply onFile_tracked.
    + rewrite (emit_unwired ev w Hu). by destruct ev.
  - by rewrite req_close_id.
  - apply settle_call_tracked; [|done|done].
    intros _ w' Hs'. unfold Adapter.handler_then.
    by destruct (onEnd_calls Js.Undefined w' Hs') as (-> & -> & _).
  - apply settle_call_tracked; [|done|done].
    intros inv w' Hs'. unfold Adapter.handler_catch.
    by destruct (onEnd_calls reason
      (Adapter.set_drained (Adapter.drained w' ++ [inv_stream inv]) w') Hs')
      as (-> & -> & _).
Qed.

(** Both classes keep their tables in shape and their calls tracked, along
    every schedule. *)
Lemma run_tracked (es : list Adapter.Event) :
  ∀ w, shaped w → tracked w →
       shaped (Adapter.run w es) ∧ tracked (Adapter.run w es).
Proof.
  induction es as [|e es IH]; intros w Hs Ht; [done|].
  simpl. apply IH; [by apply step_shaped | by apply step_tracked].
Qed.

Lemma new_tracked (limits : option (gmap string LimitValue)) :
  tracked (BusboyWrapper.new limits).
Proof. intros i Hi. by apply elem_of_nil in Hi. Qed.

Lemma step_reqListeners (w : Adapter.t) (e : Adapter.Event) :
  shaped w → Adapter.reqListeners (Adapter.step w e) = Adapter.reqListeners w.
Proof.
  assert (Hend : ∀ err w', shaped w' →
            Adapter.reqListeners (Adapter.onEnd err w')
            = Adapter.reqListeners w').
  { intros err w' Hs'. rewrite (onEnd_cleaned err w' Hs').
    by rewrite (proj2 (call_resolver_tables _ _)). }
  intros Hs. destruct e; simpl.
  - done.
  - destruct (proj1 Hs) as [Hw | Hu].
    + rewrite (emit_wired ev w Hw). destruct ev; try by apply Hend.
      * done.
      * apply onFile_tables.
    + rewrite (emit_unwired ev w Hu). by destruct ev.
  - by rewrite req_close_id.
  - unfold Adapter.settle_call.
    destruct (Adapter.calls w !! call); [|done].
    destruct (decide (call ∈ Adapter.inflight w)); [|done].
    unfold Adapter.handler_then. by rewrite Hend.
  - unfold Adapter.settle_call.
    destruct (Adapter.calls w !! call); [|done].
    destruct (decide (call ∈ Adapter.inflight w)); [|done].
    unfold Adapter.handler_catch. by rewrite Hend.
Qed.

(** ** When the parse settles *)








(** ** Terminal events *)


Lemma emit_parsing (ev : TokEvent) (w : Adapter.t) :
  parsing w → terminal ev = false → parsing (Adapter.emit ev w).
Proof.
  intros (Hs & Hw & Hr & Hp & Hl & Hc) Hev.
  rewrite (emit_wired ev w Hw). destruct ev; try discriminate Hev.
  - done.
  - unfold parsing, shaped, Adapter.onFile. simpl.
    by destruct (Adapter.fileHandler w).
Qed.

Lemma emits_parsing (evs : list TokEvent) :
  ∀ w, parsing w → forallb (λ ev, negb (terminal ev)) evs = true →
       parsing (Adapter.run w (Adapter.Emit <$> evs)).
Proof.
  induction evs as [|ev evs IH]; intros w Hw Hevs; [done|].
  simpl in Hevs. apply andb_true_iff in Hevs as [Hev Hevs].
  simpl. apply IH; [|done]. apply emit_parsing; [done|].
  by apply negb_true_iff.
Qed.

Lemma parse_parsing (limits : option (gmap string LimitValue))
    (h : option FileHandler) :
  parsing (Adapter.parse h (BusboyWrapper.new limits)).
Proof. repeat split; by left. Qed.

Lemma terminal_onEnd (t : TokEvent) (w : Adapter.t) :
  shaped w → Adapter.listeners w = wired → terminal t = true →
  Adapter.emit t w
  = Adapter.call_resolver (outcome_of t (Adapter.fields w)) (cleaned w).
Proof.
  intros Hs Hw Ht. rewrite (emit_wired t w Hw).
  destruct t; try discriminate Ht;
    unfold Adapter.onPartsLimit, Adapter.onFilesLimit, Adapter.onFieldsLimit;
    by rewrite onEnd_cleaned.
Qed.








(** ** Limit events *)

(** The limit handlers where they are reached.  Each limit event has its own
    reason string, and the error built for it is [httpError(413)] with that
    reason as its internal details: a value that depends on the kind of
    event only.  Delivered to a form-data instance whose listeners are
    attached and whose parse is pending, the event does what [cleanup]
    followed by [reject] of that error does, and nothing else. *)
Lemma limit_event_rejects_413
    (limits : option (gmap string LimitValue)) (es : list Adapter.Event)
    (ev : TokEvent) (reason : string) :
  let w := Adapter.run (BusboyWrapper.new limits) es in
  let err :=
    HttpError.withInternalDetails [("reason", reason)]
      (HttpError.httpError 413) in
  limit_reason ev = Some reason →
  Adapter.listeners w = wired →
  pending w →
  (ev = EPartsLimit ∧ reason = "Reached parts limit" ∨
   ev = EFilesLimit ∧ reason = "Reached files limit" ∨
   ev = EFieldsLimit ∧ reason = "Reached fields limit") ∧
  HttpError.statusCode err = 413%Z ∧
  HttpError.internalDetails err = Some [("reason", reason)] ∧
  Adapter.step w (Adapter.Emit ev)
  = Adapter.reject (Js.Http err) (Adapter.cleanup w) ∧
  Adapter.promise (Adapter.step w (Adapter.Emit ev))
  = Some (Rejected (Js.Http err)).
Proof.
  intros w err Hreason Hw Hp.
  assert (Hs : shaped w).
  { apply run_shaped, new_shaped. }
  clearbody w. subst err.
  split; [|split; [done|split; [done|]]].
  - destruct ev; try discriminate Hreason; injection Hreason as <-; auto.
  - simpl. rewrite (emit_wired ev w Hw).
    destruct ev; try discriminate Hreason; injection Hreason as <-.
    + split; [done|]. exact (onEnd_pending _ w Hs Hp).
    + split; [done|]. exact (onEnd_pending _ w Hs Hp).
    + split; [done|]. exact (onEnd_pending _ w Hs Hp).
Qed.

Lemma limit_event_rejects_413_witness :
  let w := Adapter.run (BusboyWrapper.new None) [Adapter.Parse (Some 0)] in
  let err :=
    HttpError.withInternalDetails [("reason", "Reached fields limit")]
      (HttpError.httpError 413) in
  (EFieldsLimit = EPartsLimit ∧
   "Reached fields limit" = "Reached parts limit" ∨
   EFieldsLimit = EFilesLimit ∧
   "Reached fields limit" = "Reached files limit" ∨
   EFieldsLimit = EFieldsLimit ∧
   "Reached fields limit" = "Reached fields limit") ∧
  HttpError.statusCode err = 413%Z ∧
  HttpError.internalDetails err = Some [("reason", "Reached fields limit")] ∧
  Adapter.step w (Adapter.Emit EFieldsLimit)
  = Adapter.reject (Js.Http err) (Adapter.cleanup w) ∧
  Adapter.promise (Adapter.step w (Adapter.Emit EFieldsLimit))
  = Some (Rejected (Js.Http err)).
Proof.
  apply (limit_event_rejects_413 None [Adapter.Parse (Some 0)] EFieldsLimit
           "Reached fields limit"); reflexivity.
Defined.

(** C5, evaluated on the code.  The three limit handlers are listeners, and
    the first call of [onEnd] removes them.  When the handler of a file part
    has completed, which resolves the parse with the map built so far, a
    parts, files or fields limit that the tokenizer reports afterwards
    reaches no handler: no 413 error is built, [reject] is not called and
    the instance, its fulfilled promise included, is left exactly as it
    was. *)
Theorem limit_event_after_handler_is_lost
    (limits : option (gmap string LimitValue)) (h : FileHandler)
    (fieldname : string) (s : Stream) (filename enc mime : string) :
  let upload := EFile fieldname s filename enc mime in
  let result : gmap string Entry :=
    {[ fieldname := One (File (mkFile s filename enc mime)) ]} in
  let w := Adapter.run (BusboyWrapper.new limits)
             [Adapter.Parse (Some h); Adapter.Emit upload;
              Adapter.HandlerResolved 0] in
  Adapter.promise w = Some (Fulfilled result) ∧
  Adapter.settlements w = [(Some 0, Fulfilled result)] ∧
  Adapter.step w (Adapter.Emit EPartsLimit) = w ∧
  Adapter.step w (Adapter.Emit EFilesLimit) = w ∧
  Adapter.step w (Adapter.Emit EFieldsLimit) = w.
Proof.
  intros upload result w.
  assert (Hu : Adapter.listeners w = []) by reflexivity.
  split; [reflexivity|]. split; [reflexivity|].
  split; [|split]; simpl; by rewrite (emit_unwired _ w Hu).
Qed.

(** ** The request's close notification *)

(** C7, evaluated on the code.  Along every schedule the listener written
    for the request's [close] stays registered: no branch that settles the
    parse removes it, because [cleanup] asks the request to remove the
    method [cleanup], which was never registered.  A close notification
    reaches only that arrow function, which calls nothing: the instance is
    left exactly as it was, with every tokenizer listener still in place. *)
Theorem close_listener_is_inert
    (limits : option (gmap string LimitValue)) (es : list Adapter.Event) :
  let w := Adapter.run (BusboyWrapper.new limits) es in
  Adapter.reqListeners w = [(close, close_arrow)] ∧
  Adapter.step w Adapter.ReqClose = w ∧
  Adapter.listeners (Adapter.step (BusboyWrapper.new limits) Adapter.ReqClose)
  = wired ∧
  Adapter.cleanups (Adapter.step (BusboyWrapper.new limits) Adapter.ReqClose)
  = 0.
Proof.
  intros w. split; [|split; [|split]].
  - subst w.
    assert (H : ∀ w0, shaped w0 →
              Adapter.reqListeners (Adapter.run w0 es)
              = Adapter.reqListeners w0).
    { induction es as [|e es IH]; intros w0 Hs; [done|].
      simpl. rewrite IH; [|by apply step_shaped].
      by apply step_reqListeners. }
    rewrite H; [done | apply new_shaped].
  - simpl. apply req_close_id. apply run_shaped, new_shaped.
  - reflexivity.
  - reflexivity.
Qed.

(** ** A file handler that rejects *)

(** The first failure wins: with two handlers in flight, the second one to
    reject has its stream drained, but the parse stays rejected with the
    first one's error. *)
Lemma second_rejection_is_dropped :
  let es :=
    [Adapter.Parse (Some 0);
     Adapter.Emit (EFile "a" 0 "a.txt" "7bit" "text/plain");
     Adapter.Emit (EFile "b" 1 "b.txt" "7bit" "text/plain");
     Adapter.HandlerRejected 0 (Js.Error "disk full")] in
  let w := Adapter.run (BusboyWrapper.new None) es in
  let w' := Adapter.step w (Adapter.HandlerRejected 1 (Js.Error "quota")) in
  1 ∈ Adapter.inflight w ∧
  Adapter.drained w' = [0; 1] ∧
  Adapter.promise w' = Some (Rejected (Js.Error "disk full")) ∧
  Adapter.promise w' ≠ Some (Rejected (Js.Error "quota")).
Proof.
  intros es w w'. split; [|split; [|split]].
  - vm_compute. left.
  - reflexivity.
  - reflexivity.
  - vm_compute. discriminate.
Qed.

(** A rejection while the parse is pending.  After any schedule, when a
    handler in flight rejects, the stream of its file part is piped into the
    discard sink, whatever state the parse is in; if the parse is pending
    and the value rejected with is an error value (one that passes
    [if (err)]), the promise is rejected with that very value; and a promise
    that had settled before keeps its settlement. *)
Lemma handler_rejection_drains_and_rejects
    (limits : option (gmap string LimitValue)) (es : list Adapter.Event)
    (i : nat) (reason : Js.Value) :
  let w := Adapter.run (BusboyWrapper.new limits) es in
  let w' := Adapter.step w (Adapter.HandlerRejected i reason) in
  i ∈ Adapter.inflight w →
  (∃ inv, Adapter.calls w !! i = Some inv ∧
          Adapter.drained w' = Adapter.drained w ++ [inv_stream inv]) ∧
  (pending w → Js.truthy reason = true →
   Adapter.promise w' = Some (Rejected reason)) ∧
  (∀ p s, Adapter.promises w !! p = Some s → s ≠ Pending →
          Adapter.promises w' !! p = Some s).
Proof.
  intros w w' Hi.
  assert (Hkeep : ∀ p s, Adapter.promises w !! p = Some s → s ≠ Pending →
                         Adapter.promises w' !! p = Some s).
  { intros p s Hp Hne. apply step_keeps; [|done|done].
    apply run_shaped, new_shaped. }
  destruct (run_tracked es (BusboyWrapper.new limits)
              (new_shaped limits) (new_tracked limits)) as [Hs Ht].
  fold w in Hs, Ht. clearbody w. subst w'.
  destruct (Ht i Hi) as [inv Hinv].
  revert Hkeep. simpl. unfold Adapter.settle_call. rewrite Hinv.
  destruct (decide (i ∈ Adapter.inflight w)); [|done].
  unfold Adapter.handler_catch.
  set (w1 := Adapter.set_drained _ _).
  assert (Hs1 : shaped w1) by exact Hs.
  intros Hkeep. split; [|split; [|exact Hkeep]].
  - exists inv. split; [done|].
    by rewrite (proj2 (proj2 (onEnd_calls reason w1 Hs1))).
  - intros Hp Htruthy.
    assert (Hp1 : pending w1) by exact Hp.
    rewrite (onEnd_pending reason w1 Hs1 Hp1). by rewrite Htruthy.
Qed.

Lemma handler_rejection_drains_and_rejects_witness :
  let w := Adapter.run (BusboyWrapper.new None)
             [Adapter.Parse (Some 0);
              Adapter.Emit (EFile "upload" 7 "a.txt" "7bit" "text/plain")] in
  let w' :=
    Adapter.step w (Adapter.HandlerRejected 0 (Js.Error "disk full")) in
  (∃ inv, Adapter.calls w !! 0 = Some inv ∧
          Adapter.drained w' = Adapter.drained w ++ [inv_stream inv]) ∧
  Adapter.promise w' = Some (Rejected (Js.Error "disk full")).
Proof.
  intros w w'.
  destruct (handler_rejection_drains_and_rejects None
              [Adapter.Parse (Some 0);
               Adapter.Emit (EFile "upload" 7 "a.txt" "7bit" "text/plain")]
              0 (Js.Error "disk full")) as (Hdrain & Hreject & _).
  - vm_compute. left.
  - split; [exact Hdrain|]. apply Hreject; reflexivity.
Defined.

(** C6, evaluated on the code.  The end of the stream resolves the parse
    while the handler of a file part is still in flight; when that handler,
    the only one there is, then rejects with an error, its stream is piped
    into the discard sink but the parse stays resolved with success: the
    handler's error reaches [reject] too late and the caller never sees it.
    The same happens to a handler that rejects after another handler has
    completed. *)
Theorem sole_rejection_is_swallowed :
  let upload := EFile "upload" 7 "a.txt" "7bit" "text/plain" in
  let result : gmap string Entry :=
    {[ "upload" := One (File (mkFile 7 "a.txt" "7bit" "text/plain")) ]} in
  let w := Adapter.run (BusboyWrapper.new None)
             [Adapter.Parse (Some 0); Adapter.Emit upload;
              Adapter.Emit EFinish] in
  let w' := Adapter.step w (Adapter.HandlerRejected 0 (Js.Error "disk full")) in
  let after_success :=
    Adapter.run (BusboyWrapper.new None)
      [Adapter.Parse (Some 0);
       Adapter.Emit (EFile "a" 0 "a.txt" "7bit" "text/plain");
       Adapter.Emit (EFile "b" 1 "b.txt" "7bit" "text/plain");
       Adapter.HandlerResolved 1;
       Adapter.HandlerRejected 0 (Js.Error "disk full")] in
  (Adapter.inflight w = [0] ∧
   Adapter.promise w = Some (Fulfilled result) ∧
   Adapter.drained w' = [7] ∧
   Adapter.settlements w'
   = [(Some 0, Fulfilled result);
      (Some 0, Rejected (Js.Error "disk full"))] ∧
   Adapter.promise w' = Some (Fulfilled result)) ∧
  (Adapter.drained after_success = [0] ∧
   Adapter.promise after_success
   = Some (Fulfilled
             {[ "a" := One (File (mkFile 0 "a.txt" "7bit" "text/plain"));
                "b" := One (File (mkFile 1 "b.txt" "7bit" "text/plain")) ]})).
Proof.
  intros upload result w w' after_success.
  split; [split; [|split; [|split; [|split]]] | split];
    vm_compute; reflexivity.
Qed.

(** ** The map that is handed over *)

Lemma onEnd_fields (err : Js.Value) (w : Adapter.t) :
  shaped w → Adapter.fields (Adapter.onEnd err w) = Adapter.fields w.
Proof.
  intros Hs. rewrite (onEnd_cleaned err w Hs). unfold Adapter.call_resolver.
  simpl. by destruct (Adapter.resolver w).
Qed.

(** [resolve(this.fields)] hands over the instance's own map.  Every call of
    [resolve] comes after [cleanup], and once the tokenizer side has no
    listener the map is never written again, so the map a promise was
    fulfilled with and the instance's map stay the same value. *)
Lemma fields_frozen (es : list Adapter.Event) :
  ∀ w, shaped w → Adapter.listeners w = [] →
       Adapter.fields (Adapter.run w es) = Adapter.fields w.
Proof.
  induction es as [|e es IH]; intros w Hs Hu; [done|].
  assert (H : Adapter.listeners (Adapter.step w e) = [] ∧
              Adapter.fields (Adapter.step w e) = Adapter.fields w).
  { destruct e; simpl.
    - done.
    - rewrite (emit_unwired ev w Hu). by destruct ev.
    - by rewrite req_close_id.
    - unfold Adapter.settle_call.
      destruct (Adapter.calls w !! call); [|done].
      destruct (decide (call ∈ Adapter.inflight w)); [|done].
      unfold Adapter.handler_then.
      split; [by apply onEnd_unwired | by rewrite onEnd_fields].
    - unfold Adapter.settle_call.
      destruct (Adapter.calls w !! call); [|done].
      destruct (decide (call ∈ Adapter.inflight w)); [|done].
      unfold Adapter.handler_catch.
      split; [by apply onEnd_unwired | by rewrite onEnd_fields]. }
  destruct H as [Hu' Hf']. simpl.
  rewrite IH; [done | by apply step_shaped | done].
Qed.

(** ** The files limit *)

(** Rewrites the calls of [onEnd err w'] to those of [w'], for a state
    [w'] whose listener tables are those of the state [Hs] speaks of. *)
Ltac use_onEnd_calls Hs :=
  match goal with
  | |- context [Adapter.onEnd ?err ?w'] =>
      rewrite (proj1 (onEnd_calls err w' Hs))
  end.

Lemma step_unwired (w : Adapter.t) (e : Adapter.Event) :
  shaped w → Adapter.listeners w = [] →
  Adapter.listeners (Adapter.step w e) = [] ∧
  Adapter.calls (Adapter.step w e) = Adapter.calls w.
Proof.
  intros Hs Hu. destruct e; simpl.
  - done.
  - rewrite (emit_unwired ev w Hu). by destruct ev.
  - by rewrite req_close_id.
  - unfold Adapter.settle_call.
    destruct (Adapter.calls w !! call); [|done].
    destruct (decide (call ∈ Adapter.inflight w)); [|done].
    unfold Adapter.handler_then. split; [by apply onEnd_unwired|].
    by use_onEnd_calls Hs.
  - unfold Adapter.settle_call.
    destruct (Adapter.calls w !! call); [|done].
    destruct (decide (call ∈ Adapter.inflight w)); [|done].
    unfold Adapter.handler_catch. split; [by apply onEnd_unwired|].
    by use_onEnd_calls Hs.
Qed.

Lemma run_unwired (es : list Adapter.Event) :
  ∀ w, shaped w → Adapter.listeners w = [] →
       Adapter.calls (Adapter.run w es) = Adapter.calls w.
Proof.
  induction es as [|e es IH]; intros w Hs Hu; [done|].
  destruct (step_unwired w e Hs Hu) as [Hu' Hc'].
  simpl. rewrite IH; [done | by apply step_shaped | done].
Qed.

(** A step calls the file handler at most once, and only for a [file]
    event. *)
Lemma step_calls (w : Adapter.t) (e : Adapter.Event) :
  shaped w →
  (length (Adapter.calls (Adapter.step w e))
   ≤ length (Adapter.calls w) + (if is_file_event e then 1 else 0))%nat.
Proof.
  intros Hs. destruct e; simpl.
  - lia.
  - destruct (proj1 Hs) as [Hw | Hu].
    + rewrite (emit_wired ev w Hw).
      destruct ev;
        try (unfold Adapter.onPartsLimit, Adapter.onFilesLimit,
               Adapter.onFieldsLimit;
             use_onEnd_calls Hs; lia).
      * simpl. lia.
      * unfold Adapter.onFile. simpl.
        destruct (Adapter.fileHandler w); simpl; [|lia].
        rewrite length_app. simpl. lia.
    + rewrite (emit_unwired ev w Hu). destruct ev; simpl; lia.
  - rewrite req_close_id; [lia | done].
  - unfold Adapter.settle_call.
    destruct (Adapter.calls w !! call); [|lia].
    destruct (decide (call ∈ Adapter.inflight w)); [|lia].
    unfold Adapter.handler_then.
    use_onEnd_calls Hs. simpl. lia.
  - unfold Adapter.settle_call.
    destruct (Adapter.calls w !! call); [|lia].
    destruct (decide (call ∈ Adapter.inflight w)); [|lia].
    unfold Adapter.handler_catch.
    use_onEnd_calls Hs. simpl. lia.
Qed.

Lemma run_calls (es : list Adapter.Event) :
  ∀ w, shaped w →
       (length (Adapter.calls (Adapter.run w es))
        ≤ length (Adapter.calls w) + file_events es)%nat.
Proof.
  induction es as [|e es IH]; intros w Hs.
  - simpl. unfold file_events. simpl. lia.
  - simpl. pose proof (IH (Adapter.step w e) (step_shaped w e Hs)) as H1.
    pose proof (step_calls w e Hs) as H2.
    unfold file_events in *. simpl.
    destruct (is_file_event e); simpl; lia.
Qed.

(** C2, evaluated on the code.  With [files = 1] and a body of two file
    parts the tokenizer delivers the first part, the limit and the end of
    the body; when the handler of the accepted file completes before the
    limit is reported, the parse has already resolved with success and the
    limit is never seen: no files-limit error reaches the caller. *)
Lemma files_limit_after_handler_done :
  let p1 := ("upload", mkFile 0 "a.txt" "7bit" "text/plain") in
  let p2 := ("upload", mkFile 1 "b.txt" "7bit" "text/plain") in
  let limits : gmap string LimitValue := {[ "files" := Some 1%Z ]} in
  let accepted := EFile "upload" 0 "a.txt" "7bit" "text/plain" in
  let es :=
    [Adapter.Parse (Some 0); Adapter.Emit accepted; Adapter.HandlerResolved 0;
     Adapter.Emit EFilesLimit; Adapter.Emit EFinish] in
  deliver 1 0 false [p1; p2] = [accepted; EFilesLimit; EFinish] ∧
  Adapter.promise (Adapter.run (BusboyWrapper.new (Some limits)) es)
  = Some (Fulfilled
            {[ "upload" := One (File (mkFile 0 "a.txt" "7bit" "text/plain")) ]}).
Proof.
  intros p1 p2 limits accepted es. split.
  - reflexivity.
  - vm_compute. reflexivity.
Qed.

(** The files limit where it is seen.  With [files = 1] and a body of two
    file parts, delivered while the handler of the accepted file is still in
    flight, the parse is rejected with the files-limit error and the handler
    was called once, for the accepted file; whatever happens afterwards, the
    promise keeps that error and the handler is not called again.  And in
    every schedule whatsoever the handler is called at most once per [file]
    event that is delivered. *)
Lemma files_limit_rejects_while_in_flight
    (other : gmap string LimitValue) (h : FileHandler)
    (p1 p2 : string * FileData) :
  let limits := Some (<["files" := Some 1%Z]> other) in
  let err :=
    Js.Http (HttpError.withInternalDetails [("reason", "Reached files limit")]
               (HttpError.httpError 413)) in
  let w := Adapter.run (BusboyWrapper.new limits)
             (Adapter.Parse (Some h)
              :: (Adapter.Emit <$> deliver 1 0 false [p1; p2])) in
  Adapter.promise w = Some (Rejected err) ∧
  Adapter.calls w
  = [mkInvocation h (fst p1) (stream (snd p1)) (filename (snd p1))
       (file_encoding (snd p1)) (file_mimeType (snd p1))] ∧
  (∀ post, Adapter.promises (Adapter.run w post) !! 0 = Some (Rejected err) ∧
           Adapter.calls (Adapter.run w post) = Adapter.calls w) ∧
  (∀ es, (length (Adapter.calls (Adapter.run (BusboyWrapper.new limits) es))
          ≤ file_events es)%nat).
Proof.
  intros limits err w. destruct p1 as [n1 d1], p2 as [n2 d2].
  assert (Hp : Adapter.promise w = Some (Rejected err)) by reflexivity.
  assert (Hc : Adapter.calls w
               = [mkInvocation h n1 (stream d1) (filename d1)
                    (file_encoding d1) (file_mimeType d1)]) by reflexivity.
  assert (Hu : Adapter.listeners w = []) by reflexivity.
  assert (Hs : shaped w) by apply run_shaped, new_shaped.
  split; [exact Hp|]. split; [exact Hc|]. split.
  - intros post. split.
    + apply run_keeps; [done | reflexivity | discriminate].
    + by apply run_unwired.
  - intros es. apply (run_calls es (BusboyWrapper.new limits)).
    apply new_shaped.
Qed.

(** ** The limits of a parse *)

(** C8. The limits [MultipartBody.parse] hands to the wrapper it builds hold,
    under every key, the per-call value when the per-call limits have that
    key and the instance's value otherwise; without per-call limits they are
    the instance's limits; and an instance built without limits has
    [files = 1] and [fileSize = 20 MB] and nothing else. *)
Theorem parse_merges_limits :
  (∀ (body : MultipartBody.t) (fh : option FileHandler)
     (overrides : gmap string LimitValue) (k : string),
     ∃ merged,
       Adapter.limits (MultipartBody.parse body fh (Some overrides))
       = Some merged ∧
       merged !! k = match overrides !! k with
                     | Some v => Some v
                     | None => MultipartBody._limits body !! k
                     end) ∧
  (∀ (body : MultipartBody.t) (fh : option FileHandler),
     Adapter.limits (MultipartBody.parse body fh None)
     = Some (MultipartBody._limits body)) ∧
  (∀ defaults : gmap string LimitValue,
     MultipartBody._limits (MultipartBody.new (Some defaults)) = defaults) ∧
  MultipartBody._limits (MultipartBody.new None)
  = {[ "files" := Some 1%Z; "fileSize" := Some 20971520%Z ]}.
Proof.
  split; [|split; [|split]].
  - intros body fh overrides k.
    exists (overrides ∪ MultipartBody._limits body). split; [reflexivity|].
    rewrite lookup_union.
    by destruct (overrides !! k), (MultipartBody._limits body !! k).
  - reflexivity.
  - reflexivity.
  - reflexivity.
Qed.

(** ** Instances nothing can reach *)

Lemma silent_step (w : Adapter.t) (e : Adapter.Event) :
  silent w →
  silent (Adapter.step w e) ∧
  Adapter.settlements (Adapter.step w e) = Adapter.settlements w ∧
  (Adapter.promises (Adapter.step w e) = Adapter.promises w ∨
   Adapter.promises (Adapter.step w e) = Adapter.promises w ++ [Pending]).
Proof.
  intros (Hu & Hi & Hs). destruct e; simpl.
  - split; [done|]. split; [done|]. by right.
  - rewrite (emit_unwired ev w Hu).
    destruct ev;
      (split; [exact (conj Hu (conj Hi Hs)) | split; [done | by left]]).
  - rewrite (req_close_id w Hs). split; [done|]. split; [done|]. by left.
  - unfold Adapter.settle_call. rewrite Hi.
    destruct (Adapter.calls w !! call);
      [destruct (decide (call ∈ [])) as [Hin|];
       [by apply elem_of_nil in Hin|]|];
      (split; [done|]; split; [done|]; by left).
  - unfold Adapter.settle_call. rewrite Hi.
    destruct (Adapter.calls w !! call);
      [destruct (decide (call ∈ [])) as [Hin|];
       [by apply elem_of_nil in Hin|]|];
      (split; [done|]; split; [done|]; by left).
Qed.

Lemma silent_run (es : list Adapter.Event) :
  ∀ w, silent w → Forall (eq Pending) (Adapter.promises w) →
       Adapter.settlements (Adapter.run w es) = Adapter.settlements w ∧
       Forall (eq Pending) (Adapter.promises (Adapter.run w es)) ∧
       (length (Adapter.promises w)
        ≤ length (Adapter.promises (Adapter.run w es)))%nat.
Proof.
  induction es as [|e es IH]; intros w Hw Hp; [done|].
  destruct (silent_step w e Hw) as (Hw' & Hl' & Hp').
  assert (Hall : Forall (eq Pending) (Adapter.promises (Adapter.step w e))).
  { destruct Hp' as [-> | ->]; [done|].
    apply Forall_app; split; [done|]. by constructor. }
  destruct (IH (Adapter.step w e) Hw' Hall) as (Hl & Hf & Hlen).
  simpl. split; [by rewrite Hl|]. split; [done|].
  destruct Hp' as [Heq | Heq]; rewrite Heq in Hlen;
    [|rewrite length_app in Hlen; simpl in Hlen]; lia.
Qed.

Lemma related_silent : silent MultipartRelatedParser.new.
Proof. split; [done|]. split; [done|]. apply related_shaped. Qed.

(** C9, evaluated on the code.  The related parser registers no listener, so
    along every schedule it never calls a resolver and every promise it has
    returned stays pending; the form-data parser, given the same [parse]
    followed by the same [finish], resolves with the empty map. *)
Theorem related_parser_never_settles :
  (∀ es : list Adapter.Event,
     Adapter.settlements (Adapter.run MultipartRelatedParser.new es) = [] ∧
     Forall (eq Pending)
       (Adapter.promises (Adapter.run MultipartRelatedParser.new es))) ∧
  (∀ h : option FileHandler,
     Adapter.promise
       (Adapter.run MultipartRelatedParser.new
          [Adapter.Parse h; Adapter.Emit EFinish])
     = Some Pending) ∧
  (∀ (limits : option (gmap string LimitValue)) (h : option FileHandler),
     Adapter.promise
       (Adapter.run (BusboyWrapper.new limits)
          [Adapter.Parse h; Adapter.Emit EFinish])
     = Some (Fulfilled ∅)).
Proof.
  split; [|split].
  - intros es.
    destruct (silent_run es MultipartRelatedParser.new related_silent)
      as (Hl & Hf & _); [by constructor|].
    split; [by rewrite Hl | done].
  - reflexivity.
  - reflexivity.
Qed.

(** ** A terminal event before [parse] *)

Lemma new_unparsed (limits : option (gmap string LimitValue)) :
  unparsed (BusboyWrapper.new limits).
Proof. split; [apply new_shaped | done]. Qed.

Lemma emit_unparsed (ev : TokEvent) (w : Adapter.t) :
  unparsed w → terminal ev = false → unparsed (Adapter.emit ev w).
Proof.
  intros (Hs & Hw & Hr & Hh & Hp & Hl & Hi) Hev.
  rewrite (emit_wired ev w Hw). destruct ev; try discriminate Hev.
  - done.
  - unfold unparsed, shaped, Adapter.onFile. simpl. by rewrite Hh.
Qed.

Lemma emits_unparsed (evs : list TokEvent) :
  ∀ w, unparsed w → forallb (λ ev, negb (terminal ev)) evs = true →
       unparsed (Adapter.run w (Adapter.Emit <$> evs)).
Proof.
  induction evs as [|ev evs IH]; intros w Hw Hevs; [done|].
  simpl in Hevs. apply andb_true_iff in Hevs as [Hev Hevs].
  simpl. apply IH; [|done]. apply emit_unparsed; [done|].
  by apply negb_true_iff.
Qed.

Lemma run_reqListeners (es : list Adapter.Event) :
  ∀ w, shaped w →
       Adapter.reqListeners (Adapter.run w es) = Adapter.reqListeners w.
Proof.
  induction es as [|e es IH]; intros w Hs; [done|].
  simpl. rewrite IH; [|by apply step_shaped].
  by apply step_reqListeners.
Qed.

(** C10, evaluated on the code.  Let a terminal event [t] reach a form-data
    instance before [parse] was called, after field and file parts only.
    The outcome [t] asks for goes to the empty class methods ([None] in the
    trace of resolver calls) and settles nothing.  [cleanup] removes every
    listener registered on the tokenizer, but not every listener the
    constructor registered: the one written for the request's [close] is
    still there.  Whatever happens after a later [parse], no resolver is
    called again and the promise that [parse] returned, like any later one,
    stays pending. *)
Theorem early_terminal_event_orphans_parse
    (limits : option (gmap string LimitValue)) (pre : list TokEvent)
    (t : TokEvent) (h : option FileHandler) (es : list Adapter.Event) :
  forallb (λ ev, negb (terminal ev)) pre = true →
  terminal t = true →
  let w0 := Adapter.run (BusboyWrapper.new limits) (Adapter.Emit <$> pre) in
  let w := Adapter.step w0 (Adapter.Emit t) in
  let w' := Adapter.run w (Adapter.Parse h :: es) in
  Adapter.settlements w = [(None, outcome_of t (Adapter.fields w0))] ∧
  Adapter.promises w = [] ∧
  Adapter.listeners w = [] ∧
  Adapter.reqListeners w = [(close, close_arrow)] ∧
  Adapter.settlements w' = Adapter.settlements w ∧
  Adapter.promises w' !! 0 = Some Pending ∧
  Forall (eq Pending) (Adapter.promises w').
Proof.
  intros Hpre Ht w0 w w'.
  assert (Hreq : Adapter.reqListeners w = [(close, close_arrow)]).
  { subst w w0.
    rewrite (step_reqListeners _ _ (run_shaped _ _ (new_shaped limits))).
    by rewrite (run_reqListeners _ _ (new_shaped limits)). }
  assert (Hw0 : unparsed w0).
  { apply (emits_unparsed pre); [apply new_unparsed | done]. }
  destruct Hw0 as (Hs & Hw & Hr & Hh & Hp & Hl & Hi).
  assert (Hw1 : w = Adapter.call_resolver
                      (outcome_of t (Adapter.fields w0)) (cleaned w0)).
  { by apply terminal_onEnd. }
  clearbody w0 w. subst w.
  set (w := Adapter.call_resolver _ _) in *.
  assert (Hsl : Adapter.settlements w
                = [(None, outcome_of t (Adapter.fields w0))]).
  { subst w. unfold Adapter.call_resolver. simpl. rewrite Hr. simpl.
    by rewrite Hl. }
  assert (Hps : Adapter.promises w = []).
  { subst w. unfold Adapter.call_resolver. simpl. rewrite Hr. simpl.
    by rewrite Hp. }
  assert (Hin : Adapter.inflight w = []).
  { subst w. unfold Adapter.call_resolver. simpl. rewrite Hr. simpl.
    by rewrite Hi. }
  assert (Hul : Adapter.listeners w = []).
  { subst w. by rewrite (proj1 (call_resolver_tables _ _)). }
  assert (Hsh : shaped w).
  { subst w. destruct (call_resolver_tables
      (outcome_of t (Adapter.fields w0)) (cleaned w0)) as [H1 H2].
    unfold shaped. rewrite H1, H2. by apply cleaned_shaped. }
  assert (Hsil : silent (Adapter.parse h w)) by (by split; [|split]).
  assert (Hall : Forall (eq Pending) (Adapter.promises (Adapter.parse h w))).
  { simpl. rewrite Hps. by constructor. }
  destruct (silent_run es (Adapter.parse h w) Hsil Hall) as (Hl' & Hf & Hlen).
  clearbody w. subst w'.
  change (Adapter.run w (Adapter.Parse h :: es))
    with (Adapter.run (Adapter.parse h w) es).
  split; [done|]. split; [done|]. split; [done|]. split; [done|].
  split; [by rewrite Hl'|]. split; [|done].
  assert (Hlen1 : (1 ≤ length (Adapter.promises
                                 (Adapter.run (Adapter.parse h w) es)))%nat).
  { etrans; [|exact Hlen]. simpl. rewrite Hps. simpl. lia. }
  destruct (Adapter.promises (Adapter.run (Adapter.parse h w) es))
    as [|p ps]; [simpl in Hlen1; lia|].
  by apply Forall_cons in Hf as [<- _].
Qed.

Lemma early_terminal_event_orphans_parse_witness :
  let w0 := Adapter.run (BusboyWrapper.new None)
              (Adapter.Emit
               <$> [EField "a" "1" false false "7bit" "text/plain"]) in
  let w := Adapter.step w0 (Adapter.Emit EFilesLimit) in
  let w' :=
    Adapter.run w
      [Adapter.Parse (Some 0);
       Adapter.Emit (EFile "upload" 0 "a.txt" "7bit" "text/plain");
       Adapter.HandlerResolved 0; Adapter.Emit EFinish] in
  Adapter.settlements w = [(None, outcome_of EFilesLimit (Adapter.fields w0))] ∧
  Adapter.promises w = [] ∧
  Adapter.listeners w = [] ∧
  Adapter.reqListeners w = [(close, close_arrow)] ∧
  Adapter.settlements w' = Adapter.settlements w ∧
  Adapter.promises w' !! 0 = Some Pending ∧
  Forall (eq Pending) (Adapter.promises w').
Proof.
  apply (early_terminal_event_orphans_parse None
           [EField "a" "1" false false "7bit" "text/plain"] EFilesLimit
           (Some 0)
           [Adapter.Emit (EFile "upload" 0 "a.txt" "7bit" "text/plain");
            Adapter.HandlerResolved 0; Adapter.Emit EFinish]);
    reflexivity.
Defined.

(** * Further properties of the parsers *)

(** ** What a parse hands back *)

Lemma emits_fields (pre : list TokEvent) :
  ∀ w, parsing w → nonterminal pre = true →
       Adapter.fields (Adapter.run w (Adapter.Emit <$> pre))
       = record_all (parts_of pre) (Adapter.fields w).
Proof.
  induction pre as [|ev pre IH]; intros w Hw Hpre; [done|].
  unfold nonterminal in Hpre. simpl in Hpre.
  apply andb_true_iff in Hpre as [Hev Hpre]. apply negb_true_iff in Hev.
  simpl. rewrite IH; [|by apply emit_parsing|done].
  destruct Hw as (_ & Hwired & _). rewrite (emit_wired ev w Hwired).
  destruct ev; try discriminate Hev.
  - done.
  - unfold Adapter.onFile. simpl. by destruct (Adapter.fileHandler w).
Qed.

(** X1. A form-data parse that receives field and file parts and then the
    end of the stream, with no file handler settling before that end,
    resolves with the map that one [setData] per part builds from the empty
    map, each part carrying the values and flags its event had; so under
    every name the result holds nothing, the bare part, or the parts of that
    name in arrival order. *)
Theorem parse_resolves_with_recorded_parts
    (limits : option (gmap string LimitValue)) (h : option FileHandler)
    (pre : list TokEvent) :
  nonterminal pre = true →
  Adapter.promise
    (Adapter.run (BusboyWrapper.new limits)
       (Adapter.Parse h :: (Adapter.Emit <$> pre) ++ [Adapter.Emit EFinish]))
  = Some (Fulfilled (record_all (parts_of pre) ∅)) ∧
  ∀ name, record_all (parts_of pre) ∅ !! name
          = entry_of (named name (parts_of pre)).
Proof.
  intros Hpre. split.
  - change (Adapter.run (BusboyWrapper.new limits)
              (Adapter.Parse h :: (Adapter.Emit <$> pre)
               ++ [Adapter.Emit EFinish]))
      with (Adapter.run (Adapter.parse h (BusboyWrapper.new limits))
              ((Adapter.Emit <$> pre) ++ [Adapter.Emit EFinish])).
    unfold Adapter.run. rewrite fold_left_app. simpl.
    fold (Adapter.run (Adapter.parse h (BusboyWrapper.new limits))
            (Adapter.Emit <$> pre)).
    pose proof (emits_parsing pre _ (parse_parsing limits h) Hpre) as Hw.
    pose proof (emits_fields pre _ (parse_parsing limits h) Hpre) as Hf.
    set (w := Adapter.run _ _) in *.
    destruct Hw as (Hs & Hwired & Hr & Hp & _).
    rewrite (terminal_onEnd EFinish w Hs Hwired eq_refl).
    rewrite call_resolver_pending.
    + simpl. by rewrite Hf.
    + unfold pending, Adapter.promise. simpl. by rewrite Hr, Hp.
  - intros name. by apply (record_all_lookup name (parts_of pre) []).
Qed.

Lemma parse_resolves_with_recorded_parts_witness :
  Adapter.promise
    (Adapter.run (BusboyWrapper.new None)
       (Adapter.Parse (Some 0)
        :: (Adapter.Emit
            <$> [EField "tag" "x" false false "7bit" "text/plain";
                 EField "tag" "y" false true "7bit" "text/plain"])
        ++ [Adapter.Emit EFinish]))
  = Some (Fulfilled
            (record_all
               (parts_of [EField "tag" "x" false false "7bit" "text/plain";
                          EField "tag" "y" false true "7bit" "text/plain"])
               ∅)).
Proof.
  apply (parse_resolves_with_recorded_parts None (Some 0)
           [EField "tag" "x" false false "7bit" "text/plain";
            EField "tag" "y" false true "7bit" "text/plain"]).
  reflexivity.
Defined.

(** ** The calls to the file handler *)

Lemma emits_calls (h : option FileHandler) (pre : list TokEvent) :
  ∀ w, Adapter.listeners w = wired → Adapter.fileHandler w = h →
       nonterminal pre = true →
       Adapter.calls (Adapter.run w (Adapter.Emit <$> pre))
       = Adapter.calls w ++ calls_of h pre.
Proof.
  induction pre as [|ev pre IH]; intros w Hwired Hh Hpre.
  - simpl. destruct h; simpl; by rewrite app_nil_r.
  - unfold nonterminal in Hpre. simpl in Hpre.
    apply andb_true_iff in Hpre as [Hev Hpre]. apply negb_true_iff in Hev.
    simpl. rewrite (emit_wired ev w Hwired).
    destruct ev; try discriminate Hev.
    + rewrite IH; [|done|done|done]. simpl. by destruct h.
    + rewrite IH; [| | |done].
      * unfold Adapter.onFile. simpl. rewrite Hh.
        destruct h as [h|]; simpl; [|done]. by rewrite <- app_assoc.
      * by rewrite (proj1 (onFile_tables _ _ _ _ _ _)).
      * unfold Adapter.onFile. simpl. rewrite Hh. by destruct h.
Qed.

(** X2. While the listeners are attached, the file handler passed to
    [parse] is called once for every [file] event, in the order of the
    events and with exactly the five arguments of the event; [field] events
    call nothing, and without a handler nothing is called at all. *)
Theorem handler_called_in_order
    (limits : option (gmap string LimitValue)) (h : option FileHandler)
    (pre : list TokEvent) :
  nonterminal pre = true →
  Adapter.calls
    (Adapter.run (BusboyWrapper.new limits)
       (Adapter.Parse h :: (Adapter.Emit <$> pre)))
  = calls_of h pre.
Proof.
  intros Hpre.
  change (Adapter.run (BusboyWrapper.new limits)
            (Adapter.Parse h :: (Adapter.Emit <$> pre)))
    with (Adapter.run (Adapter.parse h (BusboyWrapper.new limits))
            (Adapter.Emit <$> pre)).
  by rewrite (emits_calls h pre).
Qed.

Lemma handler_called_in_order_witness :
  Adapter.calls
    (Adapter.run (BusboyWrapper.new None)
       (Adapter.Parse (Some 3)
        :: (Adapter.Emit
            <$> [EFile "a" 0 "a.txt" "7bit" "text/plain";
                 EField "note" "x" false false "7bit" "text/plain";
                 EFile "b" 1 "b.bin" "binary" "application/pdf"])))
  = calls_of (Some 3)
      [EFile "a" 0 "a.txt" "7bit" "text/plain";
       EField "note" "x" false false "7bit" "text/plain";
       EFile "b" 1 "b.bin" "binary" "application/pdf"].
Proof.
  apply (handler_called_in_order None (Some 3)
           [EFile "a" 0 "a.txt" "7bit" "text/plain";
            EField "note" "x" false false "7bit" "text/plain";
            EFile "b" 1 "b.bin" "binary" "application/pdf"]).
  reflexivity.
Defined.

Lemma step_without_handler (w : Adapter.t) (e : Adapter.Event) :
  shaped w →
  match e with Adapter.Parse (Some _) => False | _ => True end →
  Adapter.fileHandler w = None → Adapter.calls w = [] →
  Adapter.drained w = [] →
  Adapter.fileHandler (Adapter.step w e) = None ∧
  Adapter.calls (Adapter.step w e) = [] ∧
  Adapter.drained (Adapter.step w e) = [].
Proof.
  assert (Hend : ∀ err w', shaped w' →
            Adapter.fileHandler (Adapter.onEnd err w')
            = Adapter.fileHandler w').
  { intros err w' Hs'. rewrite (onEnd_cleaned err w' Hs').
    unfold Adapter.call_resolver. simpl. by destruct (Adapter.resolver w'). }
  intros Hs He Hh Hc Hd.
  destruct e as [fh|ev| |call|call reason]; simpl.
  - by destruct fh.
  - destruct (proj1 Hs) as [Hw | Hu].
    + rewrite (emit_wired ev w Hw). destruct ev.
      * done.
      * unfold Adapter.onFile. simpl. by rewrite Hh.
      * destruct (onEnd_calls Js.Undefined w Hs) as (-> & _ & ->).
        by rewrite Hend.
      * destruct (onEnd_calls err w Hs) as (-> & _ & ->). by rewrite Hend.
      * unfold Adapter.onPartsLimit.
        destruct (onEnd_calls
          (Js.Http (HttpError.withInternalDetails
             [("reason", "Reached parts limit")] (HttpError.httpError 413)))
          w Hs) as (-> & _ & ->). by rewrite Hend.
      * unfold Adapter.onFilesLimit.
        destruct (onEnd_calls
          (Js.Http (HttpError.withInternalDetails
             [("reason", "Reached files limit")] (HttpError.httpError 413)))
          w Hs) as (-> & _ & ->). by rewrite Hend.
      * unfold Adapter.onFieldsLimit.
        destruct (onEnd_calls
          (Js.Http (HttpError.withInternalDetails
             [("reason", "Reached fields limit")] (HttpError.httpError 413)))
          w Hs) as (-> & _ & ->). by rewrite Hend.
    + rewrite (emit_unwired ev w Hu). by destruct ev.
  - by rewrite req_close_id.
  - unfold Adapter.settle_call. by rewrite Hc, lookup_nil.
  - unfold Adapter.settle_call. by rewrite Hc, lookup_nil.
Qed.

(** X3. When [parse] is given no file handler, no schedule makes the
    instance call a handler or pipe a stream into the discard sink: file
    parts are recorded and their streams left alone. *)
Theorem no_handler_no_calls
    (limits : option (gmap string LimitValue)) (es : list Adapter.Event) :
  without_handler es = true →
  Adapter.calls (Adapter.run (BusboyWrapper.new limits) es) = [] ∧
  Adapter.drained (Adapter.run (BusboyWrapper.new limits) es) = [].
Proof.
  intros Hes.
  cut (∀ w, shaped w → Adapter.fileHandler w = None →
            Adapter.calls w = [] → Adapter.drained w = [] →
            Adapter.calls (Adapter.run w es) = [] ∧
            Adapter.drained (Adapter.run w es) = []).
  { intros H. apply H; [apply new_shaped | done..]. }
  induction es as [|e es IH]; intros w Hs Hh Hc Hd; [done|].
  unfold without_handler in Hes. simpl in Hes.
  apply andb_true_iff in Hes as [He Hes].
  destruct (step_without_handler w e Hs) as (Hh' & Hc' & Hd'); try done.
  { destruct e as [[?|]| | | |]; done. }
  simpl. apply IH; [done | by apply step_shaped | done..].
Qed.

Lemma no_handler_no_calls_witness :
  Adapter.calls
    (Adapter.run (BusboyWrapper.new None)
       [Adapter.Parse None;
        Adapter.Emit (EFile "upload" 0 "a.txt" "7bit" "text/plain");
        Adapter.HandlerRejected 0 (Js.Error "late");
        Adapter.Emit EFinish]) = [] ∧
  Adapter.drained
    (Adapter.run (BusboyWrapper.new None)
       [Adapter.Parse None;
        Adapter.Emit (EFile "upload" 0 "a.txt" "7bit" "text/plain");
        Adapter.HandlerRejected 0 (Js.Error "late");
        Adapter.Emit EFinish]) = [].
Proof.
  apply (no_handler_no_calls None
           [Adapter.Parse None;
            Adapter.Emit (EFile "upload" 0 "a.txt" "7bit" "text/plain");
            Adapter.HandlerRejected 0 (Js.Error "late");
            Adapter.Emit EFinish]).
  reflexivity.
Defined.

(** ** Settlements are final *)

Lemma call_resolver_lookup (o s : PromiseState) (p : nat) (w : Adapter.t) :
  Adapter.promises (Adapter.call_resolver o w) !! p = Some s →
  Adapter.promises w !! p = Some s ∨
  (Adapter.promises w !! p = Some Pending ∧ s = o).
Proof.
  unfold Adapter.call_resolver. simpl.
  destruct (Adapter.resolver w) as [q|]; simpl; [|by left].
  destruct (decide (q = p)) as [->|Hne].
  - rewrite list_lookup_alter_eq.
    destruct (Adapter.promises w !! p) as [[| |]|]; simpl;
      intros [= <-]; auto.
  - rewrite list_lookup_alter_ne by done. by left.
Qed.

(** What a step can do to one promise: leave it, create it pending, or
    settle it from pending through [onEnd]. *)
Lemma step_lookup (w : Adapter.t) (e : Adapter.Event) (p : nat)
    (s : PromiseState) :
  shaped w →
  Adapter.promises (Adapter.step w e) !! p = Some s →
  Adapter.promises w !! p = Some s ∨
  (s = Pending ∧ Adapter.listeners (Adapter.step w e) = Adapter.listeners w ∧
   Adapter.fields (Adapter.step w e) = Adapter.fields w) ∨
  (Adapter.listeners (Adapter.step w e) = [] ∧
   Adapter.fields (Adapter.step w e) = Adapter.fields w ∧
   (s = Fulfilled (Adapter.fields w) ∧ existsb may_resolve [e] = true ∨
    ∃ v, s = Rejected v ∧ Js.truthy v = true ∧ In v (rejections_of e))).
Proof.
  assert (Hend : ∀ err w', shaped w' →
    Adapter.promises (Adapter.onEnd err w') !! p = Some s →
    Adapter.promises w' !! p = Some s ∨
    (Adapter.listeners (Adapter.onEnd err w') = [] ∧
     Adapter.fields (Adapter.onEnd err w') = Adapter.fields w' ∧
     (s = Fulfilled (Adapter.fields w') ∧ Js.truthy err = false ∨
      s = Rejected err ∧ Js.truthy err = true))).
  { intros err w' Hs' H. rewrite (onEnd_cleaned err w' Hs') in H.
    apply call_resolver_lookup in H as [H | [_ ->]]; [by left|].
    right. split; [by apply onEnd_unwired|].
    split; [by apply onEnd_fields|].
    destruct (Js.truthy err); auto. }
  intros Hs.
  destruct e as [fh|ev| |call|call reason]; simpl.
  - intros H. destruct (decide (p < length (Adapter.promises w))%nat).
    + left. by rewrite lookup_app_l in H.
    + rewrite lookup_app_r in H by lia.
      destruct (p - length (Adapter.promises w))%nat; [|discriminate H].
      injection H as <-. right. by left.
  - destruct (proj1 Hs) as [Hw | Hu].
    + rewrite (emit_wired ev w Hw). destruct ev.
      * by left.
      * rewrite onFile_promises. by left.
      * intros H. apply Hend in H as [H | (Hl & Hf & [[-> _] | [-> Ht]])];
          [by left | | discriminate Ht | done].
        right. right. split; [done|]. split; [done|]. by left.
      * intros H. apply Hend in H as [H | (Hl & Hf & [[-> Ht] | [-> Ht]])];
          [by left | | | done].
        -- right. right. split; [done|]. split; [done|]. left.
           split; [done|]. simpl. by rewrite Ht.
        -- right. right. split; [done|]. split; [done|]. right.
           exists err. split; [done|]. split; [done|]. by left.
      * unfold Adapter.onPartsLimit. intros H.
        apply Hend in H as [H | (Hl & Hf & [[-> Ht] | [-> Ht]])];
          [by left | discriminate Ht | | done].
        right. right. split; [done|]. split; [done|]. right.
        eexists. split; [done|]. split; [done|]. by left.
      * unfold Adapter.onFilesLimit. intros H.
        apply Hend in H as [H | (Hl & Hf & [[-> Ht] | [-> Ht]])];
          [by left | discriminate Ht | | done].
        right. right. split; [done|]. split; [done|]. right.
        eexists. split; [done|]. split; [done|]. by left.
      * unfold Adapter.onFieldsLimit. intros H.
        apply Hend in H as [H | (Hl & Hf & [[-> Ht] | [-> Ht]])];
          [by left | discriminate Ht | | done].
        right. right. split; [done|]. split; [done|]. right.
        eexists. split; [done|]. split; [done|]. by left.
    + rewrite (emit_unwired ev w Hu). destruct ev; by left.
  - rewrite req_close_id by done. by left.
  - unfold Adapter.settle_call.
    destruct (Adapter.calls w !! call); [|by left].
    destruct (decide (call ∈ Adapter.inflight w)); [|by left].
    unfold Adapter.handler_then. intros H.
    apply Hend in H as [H | (Hl & Hf & [[-> _] | [-> Ht]])];
      [by left | | discriminate Ht | exact Hs].
    right. right. split; [done|]. split; [done|]. by left.
  - unfold Adapter.settle_call.
    destruct (Adapter.calls w !! call); [|by left].
    destruct (decide (call ∈ Adapter.inflight w)); [|by left].
    unfold Adapter.handler_catch. intros H.
    apply Hend in H as [H | (Hl & Hf & [[-> Ht] | [-> Ht]])];
      [by left | | | exact Hs].
    + right. right. split; [done|]. split; [done|]. left.
      split; [done|]. simpl. by rewrite Ht.
    + right. right. split; [done|]. split; [done|]. right.
      exists reason. split; [done|]. split; [done|]. by left.
Qed.

Lemma run_snoc (w : Adapter.t) (es : list Adapter.Event) (e : Adapter.Event) :
  Adapter.run w (es ++ [e]) = Adapter.step (Adapter.run w es) e.
Proof. unfold Adapter.run. by rewrite fold_left_app. Qed.

Lemma run_append (w : Adapter.t) (es es' : list Adapter.Event) :
  Adapter.run w (es ++ es') = Adapter.run (Adapter.run w es) es'.
Proof. unfold Adapter.run. by rewrite fold_left_app. Qed.

(** While the listeners are attached no promise has been fulfilled, and a
    fulfilled promise holds the instance's map. *)
Lemma fulfilled_holds_fields (limits : option (gmap string LimitValue))
    (es : list Adapter.Event) :
  let w := Adapter.run (BusboyWrapper.new limits) es in
  ∀ p r, Adapter.promises w !! p = Some (Fulfilled r) →
         Adapter.listeners w = [] ∧ r = Adapter.fields w.
Proof.
  induction es as [|e es IH] using rev_ind; intros w p r H.
  - change (@nil PromiseState !! p = Some (Fulfilled r)) in H.
    by rewrite lookup_nil in H.
  - subst w. rewrite run_snoc in *.
    set (w := Adapter.run (BusboyWrapper.new limits) es) in *.
    assert (Hs : shaped w) by apply run_shaped, new_shaped.
    apply (step_lookup w e p _ Hs) in H
      as [H | [[H _] | (Hl & Hf & [[H _] | (v & H & _)])]];
      try discriminate H.
    + destruct (IH p r H) as [Hu ->].
      destruct (step_unwired w e Hs Hu) as [Hu' _].
      split; [done|]. symmetry. apply (fields_frozen [e] w Hs Hu).
    + injection H as ->. by rewrite Hf.
Qed.

(** X4. The map a form-data parse was fulfilled with is the instance's own
    map, and nothing that happens afterwards writes to it: at every later
    point of every schedule the instance's map still equals the result the
    caller was given. *)
Theorem result_is_final
    (limits : option (gmap string LimitValue)) (es es' : list Adapter.Event)
    (p : nat) (r : gmap string Entry) :
  Adapter.promises (Adapter.run (BusboyWrapper.new limits) es) !! p
  = Some (Fulfilled r) →
  Adapter.fields (Adapter.run (BusboyWrapper.new limits) (es ++ es')) = r.
Proof.
  intros H. destruct (fulfilled_holds_fields limits es p r H) as [Hu ->].
  rewrite run_append. apply fields_frozen; [|done].
  apply run_shaped, new_shaped.
Qed.

Lemma result_is_final_witness :
  Adapter.fields
    (Adapter.run (BusboyWrapper.new None)
       ([Adapter.Parse (Some 0);
         Adapter.Emit (EField "a" "1" false false "7bit" "text/plain");
         Adapter.Emit EFinish]
        ++ [Adapter.Emit (EField "b" "2" false false "7bit" "text/plain");
            Adapter.Emit (EField "a" "3" false false "7bit" "text/plain")]))
  = {[ "a" := One (Field (mkField "1" false false "7bit" "text/plain")) ]}.
Proof.
  apply (result_is_final None
           [Adapter.Parse (Some 0);
            Adapter.Emit (EField "a" "1" false false "7bit" "text/plain");
            Adapter.Emit EFinish]
           [Adapter.Emit (EField "b" "2" false false "7bit" "text/plain");
            Adapter.Emit (EField "a" "3" false false "7bit" "text/plain")]
           0).
  vm_compute. reflexivity.
Defined.

(** ** Where errors come from *)

(** X6. A form-data parse invents no error.  If a promise is rejected, the
    value it is rejected with passes [if (err)] and is the payload of an
    [error] event of the schedule, the value a file handler of the schedule
    rejected with, or the 413 error of a limit event of the schedule. *)
Theorem rejection_provenance
    (limits : option (gmap string LimitValue)) (es : list Adapter.Event)
    (p : nat) (v : Js.Value) :
  Adapter.promises (Adapter.run (BusboyWrapper.new limits) es) !! p
  = Some (Rejected v) →
  Js.truthy v = true ∧ In v (flat_map rejections_of es).
Proof.
  revert p v. induction es as [|e es IH] using rev_ind; intros p v H.
  - change (@nil PromiseState !! p = Some (Rejected v)) in H.
    by rewrite lookup_nil in H.
  - rewrite run_snoc in H.
    set (w := Adapter.run (BusboyWrapper.new limits) es) in *.
    assert (Hs : shaped w) by apply run_shaped, new_shaped.
    rewrite flat_map_app, in_app_iff. simpl. rewrite app_nil_r.
    apply (step_lookup w e p _ Hs) in H
      as [H | [[H _] | (_ & _ & [[H _] | (v' & H & Ht & Hin)])]];
      try discriminate H.
    + destruct (IH p v H) as [Ht Hin]. auto.
    + injection H as ->. auto.
Qed.

Lemma rejection_provenance_witness :
  Js.truthy (Js.Error "disk full") = true ∧
  In (Js.Error "disk full")
    (flat_map rejections_of
       [Adapter.Parse (Some 0);
        Adapter.Emit (EFile "upload" 0 "a.txt" "7bit" "text/plain");
        Adapter.HandlerRejected 0 (Js.Error "disk full")]).
Proof.
  apply (rejection_provenance None
           [Adapter.Parse (Some 0);
            Adapter.Emit (EFile "upload" 0 "a.txt" "7bit" "text/plain");
            Adapter.HandlerRejected 0 (Js.Error "disk full")] 0).
  reflexivity.
Defined.

(** X7. [onEnd] tests its argument with [if (err)].  When a handler in
    flight rejects with a value that fails that test ([undefined], [null],
    [false], [0], the empty string) while the parse is pending, its stream
    is still piped into the discard sink, but the parse resolves with
    success, with the map built so far. *)
Theorem falsy_rejection_resolves
    (limits : option (gmap string LimitValue)) (es : list Adapter.Event)
    (i : nat) (reason : Js.Value) :
  let w := Adapter.run (BusboyWrapper.new limits) es in
  let w' := Adapter.step w (Adapter.HandlerRejected i reason) in
  i ∈ Adapter.inflight w → pending w → Js.truthy reason = false →
  Adapter.promise w' = Some (Fulfilled (Adapter.fields w)) ∧
  length (Adapter.drained w') = S (length (Adapter.drained w)).
Proof.
  intros w w' Hi Hp Hfalsy.
  destruct (run_tracked es (BusboyWrapper.new limits)
              (new_shaped limits) (new_tracked limits)) as [Hs Ht].
  fold w in Hs, Ht. clearbody w. subst w'.
  destruct (Ht i Hi) as [inv Hinv].
  simpl. unfold Adapter.settle_call. rewrite Hinv.
  destruct (decide (i ∈ Adapter.inflight w)); [|done].
  unfold Adapter.handler_catch.
  set (w1 := Adapter.set_drained _ _).
  assert (Hs1 : shaped w1) by exact Hs.
  assert (Hp1 : pending w1) by exact Hp.
  split.
  - rewrite (onEnd_pending reason w1 Hs1 Hp1). by rewrite Hfalsy.
  - rewrite (proj2 (proj2 (onEnd_calls reason w1 Hs1))). subst w1. simpl.
    rewrite length_app. simpl. lia.
Qed.

Lemma falsy_rejection_resolves_witness :
  let w := Adapter.run (BusboyWrapper.new None)
             [Adapter.Parse (Some 0);
              Adapter.Emit (EFile "upload" 7 "a.txt" "7bit" "text/plain")] in
  let w' := Adapter.step w (Adapter.HandlerRejected 0 Js.Undefined) in
  Adapter.promise w' = Some (Fulfilled (Adapter.fields w)) ∧
  length (Adapter.drained w') = S (length (Adapter.drained w)).
Proof.
  apply (falsy_rejection_resolves None
           [Adapter.Parse (Some 0);
            Adapter.Emit (EFile "upload" 7 "a.txt" "7bit" "text/plain")]
           0 Js.Undefined).
  - vm_compute. left.
  - reflexivity.
  - reflexivity.
Defined.

(** ** Cleanup *)

(** X8. On a form-data instance in any state it can reach, [cleanup] only
    touches the listeners: it leaves none on the tokenizer side and settles
    nothing, and running it again changes nothing but the count of runs, so
    the repeated cleanups of late handler completions are harmless. *)
Theorem cleanup_idempotent
    (limits : option (gmap string LimitValue)) (es : list Adapter.Event) :
  let w := Adapter.run (BusboyWrapper.new limits) es in
  Adapter.listeners (Adapter.cleanup w) = [] ∧
  Adapter.promises (Adapter.cleanup w) = Adapter.promises w ∧
  Adapter.settlements (Adapter.cleanup w) = Adapter.settlements w ∧
  Adapter.fields (Adapter.cleanup w) = Adapter.fields w ∧
  Adapter.cleanup (Adapter.cleanup w)
  = Adapter.set_cleanups (S (S (Adapter.cleanups w))) (Adapter.cleanup w).
Proof.
  intros w.
  assert (Hs : shaped w) by apply run_shaped, new_shaped.
  clearbody w.
  rewrite (cleanup_cleaned w Hs).
  rewrite (cleanup_cleaned (cleaned w) (cleaned_shaped w Hs)).
  done.
Qed.

(** ** Calling [parse] again *)

Lemma step_orphan (w : Adapter.t) (e : Adapter.Event) (p : nat) :
  shaped w →
  Adapter.promises w !! p = Some Pending →
  (∃ q, Adapter.resolver w = Some q ∧ q ≠ p) →
  Adapter.promises (Adapter.step w e) !! p = Some Pending ∧
  (∃ q, Adapter.resolver (Adapter.step w e) = Some q ∧ q ≠ p).
Proof.
  assert (Hend : ∀ err w', shaped w' →
    Adapter.promises w' !! p = Some Pending →
    (∃ q, Adapter.resolver w' = Some q ∧ q ≠ p) →
    Adapter.promises (Adapter.onEnd err w') !! p = Some Pending ∧
    (∃ q, Adapter.resolver (Adapter.onEnd err w') = Some q ∧ q ≠ p)).
  { intros err w' Hs' Hp' (q & Hq & Hne).
    rewrite (onEnd_cleaned err w' Hs'). unfold Adapter.call_resolver.
    simpl. rewrite Hq. simpl. rewrite list_lookup_alter_ne by done.
    split; [done|]. by exists q. }
  intros Hs Hp Hq.
  destruct e as [fh|ev| |call|call reason]; simpl.
  - split.
    + rewrite lookup_app_l; [done | by eapply lookup_lt_Some].
    + exists (length (Adapter.promises w)). split; [done|].
      apply lookup_lt_Some in Hp. lia.
  - destruct (proj1 Hs) as [Hw | Hu].
    + rewrite (emit_wired ev w Hw). destruct ev; try by apply Hend.
      * done.
      * unfold Adapter.onFile. simpl. by destruct (Adapter.fileHandler w).
    + rewrite (emit_unwired ev w Hu). by destruct ev.
  - by rewrite req_close_id.
  - unfold Adapter.settle_call.
    destruct (Adapter.calls w !! call); [|done].
    destruct (decide (call ∈ Adapter.inflight w)); [|done].
    by apply Hend.
  - unfold Adapter.settle_call.
    destruct (Adapter.calls w !! call); [|done].
    destruct (decide (call ∈ Adapter.inflight w)); [|done].
    by apply Hend.
Qed.

(** X9. [parse] stores the resolvers of its new promise over the ones it
    held.  When [parse] is called again while the promise of the call before
    is pending, that earlier promise is orphaned: whatever happens afterwards
    it stays pending for ever. *)
Theorem second_parse_orphans_first
    (limits : option (gmap string LimitValue)) (es : list Adapter.Event)
    (h1 h2 : option FileHandler) (es' : list Adapter.Event) :
  let p := length (Adapter.promises
                     (Adapter.run (BusboyWrapper.new limits) es)) in
  Adapter.promises
    (Adapter.run (BusboyWrapper.new limits)
       (es ++ Adapter.Parse h1 :: Adapter.Parse h2 :: es')) !! p
  = Some Pending.
Proof.
  intros p. rewrite run_append.
  set (w := Adapter.run (BusboyWrapper.new limits) es) in *.
  assert (Hs : shaped w) by apply run_shaped, new_shaped.
  clearbody w. simpl.
  set (w2 := Adapter.parse h2 (Adapter.parse h1 w)).
  assert (Hs2 : shaped w2) by exact Hs.
  assert (Hp2 : Adapter.promises w2 !! p = Some Pending).
  { subst w2 p. simpl. rewrite <- app_assoc. simpl.
    by apply list_lookup_middle. }
  assert (Hq2 : ∃ q, Adapter.resolver w2 = Some q ∧ q ≠ p).
  { exists (S p). split; [|lia]. subst w2 p. simpl.
    rewrite length_app. simpl. f_equal. lia. }
  clearbody w2. clear Hs. revert w2 Hs2 Hp2 Hq2.
  induction es' as [|e es' IH]; intros w2 Hs2 Hp2 Hq2; [done|].
  destruct (step_orphan w2 e p Hs2 Hp2 Hq2) as [Hp' Hq'].
  simpl. apply IH; [by apply step_shaped | done | done].
Qed.

(** ** The discard sink *)

Lemma step_drained (w : Adapter.t) (e : Adapter.Event) :
  shaped w →
  Adapter.calls w `prefix_of` Adapter.calls (Adapter.step w e) ∧
  (Adapter.drained (Adapter.step w e) = Adapter.drained w ∨
   ∃ i inv reason, e = Adapter.HandlerRejected i reason ∧
                   Adapter.calls w !! i = Some inv ∧
                   Adapter.drained (Adapter.step w e)
                   = Adapter.drained w ++ [inv_stream inv]).
Proof.
  intros Hs.
  destruct e as [fh|ev| |call|call reason]; simpl.
  - by split; [|left].
  - destruct (proj1 Hs) as [Hw | Hu].
    + rewrite (emit_wired ev w Hw).
      destruct ev;
        try (unfold Adapter.onPartsLimit, Adapter.onFilesLimit,
               Adapter.onFieldsLimit;
             match goal with
             | |- context [Adapter.onEnd ?err w] =>
                 destruct (onEnd_calls err w Hs) as (-> & _ & ->)
             end; by split; [|left]).
      * by split; [|left].
      * unfold Adapter.onFile. simpl.
        destruct (Adapter.fileHandler w); simpl; (split; [|by left]);
          [by apply prefix_app_r | done].
    + rewrite (emit_unwired ev w Hu). destruct ev; by split; [|left].
  - rewrite req_close_id by done. by split; [|left].
  - unfold Adapter.settle_call.
    destruct (Adapter.calls w !! call); [|by split; [|left]].
    destruct (decide (call ∈ Adapter.inflight w)); [|by split; [|left]].
    unfold Adapter.handler_then.
    match goal with
    | |- context [Adapter.onEnd ?err ?w'] =>
        destruct (onEnd_calls err w' Hs) as (-> & _ & ->)
    end. by split; [|left].
  - unfold Adapter.settle_call.
    destruct (Adapter.calls w !! call) as [inv|] eqn:Hinv;
      [|by split; [|left]].
    destruct (decide (call ∈ Adapter.inflight w)); [|by split; [|left]].
    unfold Adapter.handler_catch.
    match goal with
    | |- context [Adapter.onEnd ?err ?w'] =>
        destruct (onEnd_calls err w' Hs) as (-> & _ & ->)
    end. split; [done|]. right. by exists call, inv, reason.
Qed.

(** X10. A stream is piped into the discard sink only when the handler
    called for it rejects: every drained stream is the stream of a call that
    was made to the file handler, and there are at most as many drained
    streams as the schedule holds handler rejections. *)
Theorem drained_only_rejected
    (limits : option (gmap string LimitValue)) (es : list Adapter.Event) :
  let w := Adapter.run (BusboyWrapper.new limits) es in
  (∀ s, s ∈ Adapter.drained w →
        ∃ inv, inv ∈ Adapter.calls w ∧ inv_stream inv = s) ∧
  (length (Adapter.drained w) ≤ handler_rejections es)%nat.
Proof.
  induction es as [|e es IH] using rev_ind; intros w.
  - split; [|done]. intros s Hs. by apply elem_of_nil in Hs.
  - subst w. rewrite run_snoc.
    set (w := Adapter.run (BusboyWrapper.new limits) es) in *.
    assert (Hs : shaped w) by apply run_shaped, new_shaped.
    destruct IH as [IH1 IH2].
    destruct (step_drained w e Hs) as [Hpre Hd].
    unfold handler_rejections in *. rewrite List.filter_app, length_app.
    destruct Hd as [-> | (i & inv & reason & -> & Hinv & ->)].
    + split; [|lia]. intros s Hin.
      destruct (IH1 s Hin) as (inv & Hinv & <-).
      exists inv. split; [|done]. by eapply elem_of_prefix.
    + split; [|rewrite length_app; simpl; lia].
      intros s [Hin | Hin]%elem_of_app.
      * destruct (IH1 s Hin) as (inv' & Hinv' & <-).
        exists inv'. split; [|done]. by eapply elem_of_prefix.
      * apply list_elem_of_singleton in Hin as ->.
        exists inv. split; [|done]. eapply elem_of_prefix; [|done].
        by eapply list_elem_of_lookup_2.
Qed.

(** ** The related parser *)

Lemma silent_step_eq (w : Adapter.t) (e : Adapter.Event) :
  silent w →
  Adapter.step w e = w ∨
  (∃ h, Adapter.step w e = Adapter.parse h w) ∨
  (∃ us, Adapter.step w e = Adapter.set_uncaught us w).
Proof.
  intros (Hu & Hi & Hs). destruct e as [fh|ev| |call|call reason]; simpl.
  - right. left. by exists fh.
  - rewrite (emit_unwired ev w Hu).
    destruct ev; try (by left). right. right. by eexists.
  - left. by apply req_close_id.
  - left. unfold Adapter.settle_call. rewrite Hi.
    destruct (Adapter.calls w !! call); [|done].
    destruct (decide (call ∈ [])) as [Hin|]; [|done].
    by apply elem_of_nil in Hin.
  - left. unfold Adapter.settle_call. rewrite Hi.
    destruct (Adapter.calls w !! call); [|done].
    destruct (decide (call ∈ [])) as [Hin|]; [|done].
    by apply elem_of_nil in Hin.
Qed.

(** X11. The related parser, which registers no listener, records nothing
    and calls nothing: along every schedule its map stays empty, the file
    handler is never called and no stream is drained, whatever parts the
    schedule delivers. *)
Theorem related_parser_records_nothing (es : list Adapter.Event) :
  let w := Adapter.run MultipartRelatedParser.new es in
  Adapter.fields w = ∅ ∧ Adapter.calls w = [] ∧ Adapter.drained w = [] ∧
  Adapter.cleanups w = 0.
Proof.
  cut (∀ w0, silent w0 →
         Adapter.fields (Adapter.run w0 es) = Adapter.fields w0 ∧
         Adapter.calls (Adapter.run w0 es) = Adapter.calls w0 ∧
         Adapter.drained (Adapter.run w0 es) = Adapter.drained w0 ∧
         Adapter.cleanups (Adapter.run w0 es) = Adapter.cleanups w0).
  { intros H. apply (H MultipartRelatedParser.new related_silent). }
  induction es as [|e es IH]; intros w0 Hw0; [done|].
  pose proof (proj1 (silent_step w0 e Hw0)) as Hsil.
  destruct (IH (Adapter.step w0 e) Hsil) as (H1 & H2 & H3 & H4).
  change (Adapter.run w0 (e :: es))
    with (Adapter.run (Adapter.step w0 e) es).
  rewrite H1, H2, H3, H4.
  by destruct (silent_step_eq w0 e Hw0) as [-> | [[h ->] | [us ->]]].
Qed.
